(** * clamav-api-sdk-node: the chunked-transfer generator and the stream drivers

    A shallow embedding of
      - [src/utils/stream.ts]     ([chunkStream], [streamToBuffer]),
      - [src/utils/validation.ts] ([resolveInput], [deriveFilename]),
      - [src/grpc/client.ts]      (the operations, [sendStreamChunks],
                                   [wireAbortSignal], [toScanResult],
                                   [mapGrpcError]),
      - [src/rest/client.ts]      (the operations, [fetch],
                                   [parseScanResponse]),
      - [src/index.ts]            (the choice of the transport),
    together with the properties the specification states about them.

    Buffers are lists of bytes, JavaScript integers are [Z], async
    generators are explicit resumable states with a [next] function, and
    the event-driven multi-file driver is a transition function over the
    events its handlers react to. *)

From Stdlib Require Import ZArith List Lia Bool QArith DecimalString.
From Stdlib.Strings Require Import String Byte.
Import ListNotations.

Open Scope Z_scope.

(* ===================================================================== *)
(** * JavaScript values the code inspects *)
(* ===================================================================== *)

Module Js.

(** The classes of src/errors.ts, plus the two built-in ones the clients
    meet. *)
Inductive ErrorClass : Type :=
| PlainError
| DOMException
| ClamAVError
| ClamAVConnectionError
| ClamAVTimeoutError
| ClamAVValidationError
| ClamAVServiceError.

(** An [Error] instance: its class, [name], [message], and the [code] and
    [statusCode] that [ClamAVError] adds. The [cause] is carried along by
    the source and never read, so it is left out. *)
Record Error : Type := mkError {
  cls : ErrorClass;
  name : string;
  message : string;
  code : option string;
  statusCode : option Z
}.

(** A thrown value: an [Error] instance, or anything else, which the code
    only ever turns into text with [String(v)]. *)
Inductive Value : Type :=
| VError (e : Error)
| VOther (shown : string).

(** [new Error(msg)] *)
Definition newError (msg : string) : Error :=
  mkError PlainError "Error" msg None None.

(** [String(v)] *)
Definition toString (v : Value) : string :=
  match v with
  | VError e => name e ++ ": " ++ message e
  | VOther s => s
  end.

(** [a || b] on strings: the empty string is falsy. *)
Definition orString (a b : string) : string :=
  if String.eqb a "" then b else a.

(** [a || b] on numbers: zero is falsy. *)
Definition orNumber (a b : Q) : Q :=
  if Qeq_bool a 0%Q then b else a.

(** How a generator or an async function ends. *)
Inductive Ending : Type :=
| Returned
| Raised (v : Value).

End Js.

(* ===================================================================== *)
(** * Buffers *)
(* ===================================================================== *)

Module Buf.

Definition Buffer : Type := list byte.

(** [buf.length] *)
Definition len (b : Buffer) : Z := Z.of_nat (List.length b).

(** Index normalisation of [subarray]: a negative index counts from the
    end, and every index is clamped to [0 .. length]. *)
Definition clampIndex (n i : Z) : Z :=
  if i <? 0 then Z.max (n + i) 0 else Z.min i n.

(** [buf.subarray(start, end)] *)
Definition subarray (b : Buffer) (s e : Z) : Buffer :=
  let s' := clampIndex (len b) s in
  let e' := clampIndex (len b) e in
  firstn (Z.to_nat (e' - s')) (skipn (Z.to_nat s') b).

(** [buf.subarray(start)]: the end defaults to the length. *)
Definition subarrayFrom (b : Buffer) (s : Z) : Buffer :=
  subarray b s (len b).

(** [Buffer.concat(list)] *)
Definition concat (l : list Buffer) : Buffer := List.concat l.

End Buf.

Import Buf.

(* ===================================================================== *)
(** * The Chunker: [chunkStream] of src/utils/stream.ts *)
(* ===================================================================== *)

Module Chunker.

(** A [Readable] as [for await] sees it: a finite run of fragments that
    ends normally or with a failure of the stream. *)
Inductive Source : Type :=
| Eof
| Chunk (data : Buffer) (rest : Source)
| Broken (v : Js.Value).

Fixpoint ofList (l : list Buffer) : Source :=
  match l with
  | [] => Eof
  | b :: l' => Chunk b (ofList l')
  end.

(** [pending.length === 1 ? pending[0] : Buffer.concat(pending)] *)
Definition merge (pending : list Buffer) : Buffer :=
  match pending with
  | [b] => b
  | _ => Buf.concat pending
  end.

(** The places where the generator can be suspended. *)
Inductive Gen : Type :=
| Start (source : Source)                        (* not yet run *)
| AfterYield (merged : Buffer) (source : Source) (* at the yield of line 25 *)
| AfterLast                                      (* at the yield of line 38 *)
| Completed.

(** What one call of [next()] gives. *)
Inductive Step : Type :=
| Yield (frame : Buffer) (g : Gen)
| Done
| Throw (v : Js.Value).

Section WithChunkSize.

Variable chunkSize : Z.

(** Lines 22-25: merge the accumulator and yield its first [chunkSize]
    bytes; the generator is then suspended inside the [while] loop. *)
Definition emit (pending : list Buffer) (source : Source) : Step :=
  let merged := merge pending in
  Yield (subarray merged 0 chunkSize) (AfterYield merged source).

(** The [for await] loop from its head (line 16), run until the next
    [yield], the end of the generator, or a failure of the source. *)
Fixpoint forLoop (pending : list Buffer) (pendingBytes : Z)
         (source : Source) : Step :=
  match source with
  | Eof =>
      if 0 <? pendingBytes then Yield (merge pending) AfterLast else Done
  | Broken v => Throw v
  | Chunk buf rest =>
      let pending := pending ++ [buf] in
      let pendingBytes := pendingBytes + len buf in
      if chunkSize <=? pendingBytes
      then emit pending rest
      else forLoop pending pendingBytes rest
  end.

(** Resuming after the [yield] of line 25: lines 27-33, then the [while]
    test again. *)
Definition resume (merged : Buffer) (source : Source) : Step :=
  let remainder := subarrayFrom merged chunkSize in
  let pending := if 0 <? len remainder then [remainder] else [] in
  let pendingBytes := if 0 <? len remainder then len remainder else 0 in
  if chunkSize <=? pendingBytes
  then emit pending source
  else forLoop pending pendingBytes source.

Definition next (g : Gen) : Step :=
  match g with
  | Start source => forLoop [] 0 source
  | AfterYield merged source => resume merged source
  | AfterLast => Done
  | Completed => Done
  end.

(** A consumer that drains the generator ([for await (const c of ...)]):
    the frames it receives and how the iteration ends. [None] when the
    generator has not finished after [fuel] calls of [next]. *)
Fixpoint collect (fuel : nat) (g : Gen) : option (list Buffer * Js.Ending) :=
  match fuel with
  | O => None
  | S fuel' =>
      match next g with
      | Done => Some ([], Js.Returned)
      | Throw v => Some ([], Js.Raised v)
      | Yield frame g' =>
          match collect fuel' g' with
          | Some (frames, ending) => Some (frame :: frames, ending)
          | None => None
          end
      end
  end.

(** [chunkStream(source, chunkSize)] runs to its end: it yields [frames]
    and then ends with [ending]. *)
Definition chunkStream (source : Source) (frames : list Buffer)
           (ending : Js.Ending) : Prop :=
  exists fuel, collect fuel (Start source) = Some (frames, ending).

End WithChunkSize.

(** Every frame but the last has exactly [F] bytes, the last one between
    1 and [F]. *)
Fixpoint wellSized (F : Z) (frames : list Buffer) : Prop :=
  match frames with
  | [] => True
  | [b] => 0 < len b <= F
  | b :: rest => len b = F /\ wellSized F rest
  end.

End Chunker.

(* ===================================================================== *)
(** * Types shared by both clients (src/types.ts) *)
(* ===================================================================== *)

Module Types.

(** [AbortSignal]: whether it is aborted, and its [reason]. *)
Record AbortSignal : Type := mkSignal {
  aborted : bool;
  reason : Js.Value
}.

Record RequestOptions : Type := mkOptions {
  signal : option AbortSignal;
  timeout : option Z
}.

(** [options?.signal] *)
Definition signalOf (options : option RequestOptions) : option AbortSignal :=
  match options with
  | Some o => signal o
  | None => None
  end.

(** [options?.timeout ?? this.timeout] *)
Definition timeoutOf (options : option RequestOptions) (dflt : Z) : Z :=
  match options with
  | Some o => match timeout o with Some t => t | None => dflt end
  | None => dflt
  end.

Record ScanResult : Type := mkScanResult {
  status : string;
  message : string;
  scanTime : Q;
  filename : option string;
  isInfected : bool
}.

Record FileEntry : Type := mkFile {
  data : Buffer;
  fileName : string
}.

End Types.

(* ===================================================================== *)
(** * The gRPC client (src/grpc/client.ts) *)
(* ===================================================================== *)

Module Grpc.

Import Chunker.

Definition CHUNK_SIZE : Z := 64 * 1024.

(** One message of the upload stream, as [call.write] receives it. *)
Record ScanStreamRequest : Type := mkRequest {
  chunk : Buffer;
  filename : string;
  isLast : bool
}.

(** ** [sendStreamChunks] *)

(** The body of the [for await] loop (lines 259-267) for one chunk;
    [written] is what [call.write] has received so far. *)
Definition onChunk (filename : string) (chunk : Buffer)
           (prevChunk : option Buffer) (isFirst : bool)
           (written : list ScanStreamRequest)
  : option Buffer * bool * list ScanStreamRequest :=
  match prevChunk with
  | Some prev =>
      (Some chunk, false,
       written ++ [mkRequest prev (if isFirst then filename else "") false])
  | None => (Some chunk, isFirst, written)
  end.

(** Lines 270-276, after the loop. *)
Definition flush (filename : string) (prevChunk : option Buffer)
           (isFirst : bool) (written : list ScanStreamRequest)
  : list ScanStreamRequest :=
  match prevChunk with
  | Some prev =>
      written ++ [mkRequest prev (if isFirst then filename else "") true]
  | None => written
  end.

(** The loop over [chunkStream(stream, CHUNK_SIZE)]. A failure of the
    chunk generator leaves the function at once, with what was written. *)
Fixpoint sendLoop (fuel : nat) (filename : string) (g : Gen)
         (prevChunk : option Buffer) (isFirst : bool)
         (written : list ScanStreamRequest)
  : option (list ScanStreamRequest * Js.Ending) :=
  match fuel with
  | O => None
  | S fuel' =>
      match next CHUNK_SIZE g with
      | Yield chunk g' =>
          let '(prevChunk', isFirst', written') :=
            onChunk filename chunk prevChunk isFirst written in
          sendLoop fuel' filename g' prevChunk' isFirst' written'
      | Done => Some (flush filename prevChunk isFirst written, Js.Returned)
      | Throw v => Some (written, Js.Raised v)
      end
  end.

(** [sendStreamChunks(call, stream, filename)] runs to its end: [call]
    has received [written], and the promise settles as [ending]. *)
Definition sendStreamChunks (stream : Source) (filename : string)
           (written : list ScanStreamRequest) (ending : Js.Ending) : Prop :=
  exists fuel,
    sendLoop fuel filename (Start stream) None true [] = Some (written, ending).

(** [Readable.from(buffer)]: the whole buffer as one fragment. *)
Definition readableFrom (b : Buffer) : Source := Chunk b Eof.

(** ** [toScanResult] and [mapGrpcError] *)

Record GrpcScanResponse : Type := mkResponse {
  resp_status : string;
  resp_message : string;
  resp_scan_time : Q;
  resp_filename : string
}.

Definition toScanResult (response : GrpcScanResponse) : Types.ScanResult :=
  let status := Js.orString (resp_status response) "ERROR" in
  Types.mkScanResult
    status
    (Js.orString (resp_message response) "")
    (Js.orNumber (resp_scan_time response) 0%Q)
    (if String.eqb (resp_filename response) "" then None
     else Some (resp_filename response))
    (String.eqb status "FOUND").

(** [grpc.ServiceError], as far as [mapGrpcError] reads it. *)
Record ServiceError : Type := mkServiceError {
  se_code : Z;
  se_details : string;
  se_message : string
}.

(** The members of [grpc.status] that [mapGrpcError] names. *)
Definition CANCELLED : Z := 1.
Definition INVALID_ARGUMENT : Z := 3.
Definition DEADLINE_EXCEEDED : Z := 4.
Definition INTERNAL : Z := 13.
Definition UNAVAILABLE : Z := 14.

Definition mapGrpcError (error : ServiceError) : Js.Error :=
  let message := Js.orString (se_details error) (se_message error) in
  let c := se_code error in
  if c =? INVALID_ARGUMENT then
    Js.mkError Js.ClamAVValidationError "ClamAVValidationError" message
               (Some "VALIDATION_ERROR"%string) (Some c)
  else if c =? INTERNAL then
    Js.mkError Js.ClamAVServiceError "ClamAVServiceError" message
               (Some "SERVICE_ERROR"%string) (Some c)
  else if c =? DEADLINE_EXCEEDED then
    Js.mkError Js.ClamAVTimeoutError "ClamAVTimeoutError" message
               (Some "TIMEOUT"%string) (Some c)
  else if c =? UNAVAILABLE then
    Js.mkError Js.ClamAVConnectionError "ClamAVConnectionError" message
               (Some "CONNECTION_ERROR"%string) None
  else if c =? CANCELLED then
    Js.mkError Js.ClamAVError "ClamAVError" message
               (Some "CANCELLED"%string) (Some c)
  else
    Js.mkError Js.ClamAVError "ClamAVError" message
               (Some "GRPC_ERROR"%string) (Some c).

(** ** What the client does to the transport *)

Inductive Method : Type := HealthCheck | ScanFile | ScanStream | ScanMultiple.

(** The operations on the stub and on the call object it returns, in the
    order the client performs them. *)
Inductive CallOp : Type :=
| Invoke (m : Method)              (* this.client.m(...): the call is started *)
| Cancel                           (* call.cancel() *)
| ListenAbort                      (* signal.addEventListener('abort', ...) *)
| On (event : string)              (* call.on(event, handler) *)
| Write (r : ScanStreamRequest)    (* call.write(r) *)
| End.                             (* call.end() *)

Definition wireAbortSignal (signal : option Types.AbortSignal) : list CallOp :=
  match signal with
  | None => []
  | Some s => if Types.aborted s then [Cancel] else [ListenAbort]
  end.

(** The synchronous part of each operation, from the moment its input is
    resolved: the stub method is invoked, then the signal is wired. *)
Definition healthCheck (options : option Types.RequestOptions) : list CallOp :=
  Invoke HealthCheck :: wireAbortSignal (Types.signalOf options).

Definition scanFile (options : option Types.RequestOptions) : list CallOp :=
  Invoke ScanFile :: wireAbortSignal (Types.signalOf options).

(** [scanStream] goes on to send the chunks; [written] is what
    [sendStreamChunks] writes. *)
Definition scanStream (options : option Types.RequestOptions)
           (written : list ScanStreamRequest) : list CallOp :=
  Invoke ScanStream :: wireAbortSignal (Types.signalOf options)
    ++ map Write written.

(** [scanMultiple], up to the start of the sender task. *)
Definition scanMultipleOpen (options : option Types.RequestOptions)
  : list CallOp :=
  Invoke ScanMultiple :: wireAbortSignal (Types.signalOf options)
    ++ [On "data"%string; On "error"%string; On "end"%string].

(** ** The multi-file driver: [scanMultiple] *)

(** The [state] object of lines 179-184. [resolveNext] is [true] once a
    resolver has been stored; it is never reset, and calling the resolver
    of a promise that is already resolved does nothing. *)
Record State : Type := mkState {
  results : list Types.ScanResult;
  resolveNext : bool;
  done : bool;
  error : option Js.Error
}.

(** Where the consuming generator stands. *)
Inductive Phase : Type :=
| AtYield                 (* suspended at the yield of line 230 *)
| Awaiting                (* inside the await of line 239 *)
| Woken                   (* its promise is resolved, continuation pending *)
| Ended (how : Js.Ending). (* left by the return of line 236 or by the
                             throw of line 235 *)

Record Driver : Type := mkDriver {
  state : State;
  yielded : nat;
  phase : Phase;
  delivered : list Types.ScanResult;   (* what the consumer has received *)
  call : list CallOp                   (* what the call object has received *)
}.

Definition withState (f : State -> State) (d : Driver) : Driver :=
  mkDriver (f (state d)) (yielded d) (phase d) (delivered d) (call d).

Definition withPhase (p : Phase) (d : Driver) : Driver :=
  mkDriver (state d) (yielded d) p (delivered d) (call d).

Definition withCall (op : CallOp) (d : Driver) : Driver :=
  mkDriver (state d) (yielded d) (phase d) (delivered d) (call d ++ [op]).

(** [state.resolveNext?.()] *)
Definition notify (d : Driver) : Driver :=
  if resolveNext (state d)
  then match phase d with
       | Awaiting => withPhase Woken d
       | _ => d
       end
  else d.

(** The handler of ['data'] (lines 195-198). *)
Definition onData (response : GrpcScanResponse) (d : Driver) : Driver :=
  notify (withState (fun s =>
    mkState (results s ++ [toScanResult response])
            (resolveNext s) (done s) (error s)) d).

(** The handler of ['error'] (lines 200-204). *)
Definition onError (e : ServiceError) (d : Driver) : Driver :=
  notify (withState (fun s =>
    mkState (results s) (resolveNext s) true (Some (mapGrpcError e))) d).

(** The handler of ['end'] (lines 206-209). *)
Definition onEnd (d : Driver) : Driver :=
  notify (withState (fun s =>
    mkState (results s) (resolveNext s) true (error s)) d).

(** [err instanceof Error ? err : new Error(String(err))] *)
Definition asError (err : Js.Value) : Js.Error :=
  match err with
  | Js.VError e => e
  | Js.VOther _ => Js.newError (Js.toString err)
  end.

(** The sender task leaves its [try] block normally (line 218). *)
Definition onSubmitted (d : Driver) : Driver := withCall End d.

(** The [catch] of the sender task (lines 219-224). *)
Definition onSubmitFailed (err : Js.Value) (d : Driver) : Driver :=
  notify (withCall Cancel (withState (fun s =>
    mkState (results s) (resolveNext s) true (Some (asError err))) d)).

(** The [while (true)] loop of lines 228-242 from its head to the next
    point where the generator stops. [nth_error] gives [Some] exactly
    when [yielded < state.results.length]. *)
Definition pump (d : Driver) : Driver :=
  let s := state d in
  match nth_error (results s) (yielded d) with
  | Some r =>
      mkDriver s (S (yielded d)) AtYield (delivered d ++ [r]) (call d)
  | None =>
      if done s && (List.length (results s) <=? yielded d)%nat
      then match error s with
           | Some e => withPhase (Ended (Js.Raised (Js.VError e))) d
           | None => withPhase (Ended Js.Returned) d
           end
      else mkDriver (mkState (results s) true (done s) (error s))
                    (yielded d) Awaiting (delivered d) (call d)
  end.

(** What can happen once the exchange is open. *)
Inductive Event : Type :=
| Data (response : GrpcScanResponse)   (* the remote side emits a result *)
| Error (e : ServiceError)             (* the exchange reports a failure *)
| EndOfStream                          (* the exchange ends normally *)
| Submitted                            (* the sender task finished *)
| SubmitFailed (err : Js.Value)        (* the sender task failed *)
| Next                                 (* the consumer asks for an outcome *)
| Resume.                              (* the woken generator runs on *)

Definition step (d : Driver) (ev : Event) : Driver :=
  match ev with
  | Data response => onData response d
  | Error e => onError e d
  | EndOfStream => onEnd d
  | Submitted => onSubmitted d
  | SubmitFailed err => onSubmitFailed err d
  | Next => match phase d with AtYield => pump d | _ => d end
  | Resume => match phase d with Woken => pump d | _ => d end
  end.

(** The first [next()] runs the body up to its first suspension: the call
    is opened and wired, the handlers are registered, the sender task is
    started, and the loop finds nothing to yield. *)
(*  The phase given to [pump] here is of no account: [pump] sets it. *)
Definition opened (options : option Types.RequestOptions) : Driver :=
  pump (mkDriver (mkState [] false false None) 0 AtYield []
                 (scanMultipleOpen options)).

Definition run (options : option Types.RequestOptions) (trace : list Event)
  : Driver :=
  fold_left step trace (opened options).

(** The readings of a trace. *)
Definition outcomeOf (ev : Event) : option Types.ScanResult :=
  match ev with
  | Data response => Some (toScanResult response)
  | _ => None
  end.

Definition failureOf (ev : Event) : option Js.Error :=
  match ev with
  | Error e => Some (mapGrpcError e)
  | SubmitFailed err => Some (asError err)
  | _ => None
  end.

(** The outcomes the remote side has emitted, in emission order. *)
Fixpoint emitted (trace : list Event) : list Types.ScanResult :=
  match trace with
  | [] => []
  | ev :: rest =>
      match outcomeOf ev with
      | Some r => r :: emitted rest
      | None => emitted rest
      end
  end.

(** The failures signalled, oldest first. *)
Fixpoint failures (trace : list Event) : list Js.Error :=
  match trace with
  | [] => []
  | ev :: rest =>
      match failureOf ev with
      | Some e => e :: failures rest
      | None => failures rest
      end
  end.

(** The failure signalled last, if any. *)
Definition lastFailure (trace : list Event) : option Js.Error :=
  last (map Some (failures trace)) None.

Definition finished (d : Driver) : bool :=
  match phase d with
  | Ended _ => true
  | _ => false
  end.

(** The consumer keeps asking: the woken generator runs on, then [n]
    calls of [next()]. *)
Definition pulls (n : nat) : list Event := Resume :: repeat Next n.

(** The events that set [state.done]: after one of them the exchange is
    over. *)
Definition terminal (ev : Event) : bool :=
  match ev with
  | Error _ | EndOfStream | SubmitFailed _ => true
  | _ => false
  end.

Definition isData (ev : Event) : bool :=
  match ev with
  | Data _ => true
  | _ => false
  end.

(** A trace in which the remote side emits nothing once the exchange is
    over. *)
Fixpoint quiet (trace : list Event) : bool :=
  match trace with
  | [] => true
  | ev :: rest =>
      if terminal ev
      then forallb (fun e => negb (isData e)) rest
      else quiet rest
  end.

End Grpc.

(* ===================================================================== *)
(** * The REST client (src/rest/client.ts) *)
(* ===================================================================== *)

Module Rest.

Import Types.

(** How a promise settles. *)
Inductive Settled (A : Type) : Type :=
| Fulfilled (value : A)
| Rejected (reason : Js.Value).

Arguments Fulfilled {A} value.
Arguments Rejected {A} reason.

(** ** [fetch] *)

(** A [Response], as far as the client reads it. *)
Record Response : Type := mkResponse {
  ok : bool;
  httpStatus : Z
}.

(** What [fetch] does to timers, to its [AbortController] and to the
    transport, in the order it does it. *)
Inductive FetchOp : Type :=
| SetTimeout (ms : Z)                  (* setTimeout(() => controller.abort(), ms) *)
| ControllerAbort (reason : Js.Value)  (* controller.abort(reason) *)
| ListenAbort                          (* signal.addEventListener('abort', ...) *)
| GlobalFetch (url : string) (signalAborted : bool)
                                       (* globalThis.fetch(url, {signal}) *)
| ClearTimeout.                        (* clearTimeout(timeoutId) *)

(** One run of the transport: how the promise of [globalThis.fetch]
    settles, and whether the caller's signal was aborted while the
    request was under way. *)
Record Exchange : Type := mkExchange {
  settles : Settled Response;
  abortedMeanwhile : bool
}.

(** The transport, given the URL and whether the signal it receives is
    already aborted. *)
Definition Transport : Type := string -> bool -> Exchange.

(** [error instanceof DOMException && error.name === 'AbortError'] *)
Definition isAbortError (v : Js.Value) : bool :=
  match v with
  | Js.VError e =>
      match Js.cls e with
      | Js.DOMException => String.eqb (Js.name e) "AbortError"
      | _ => false
      end
  | Js.VOther _ => false
  end.

Definition showZ (z : Z) : string :=
  DecimalString.NilZero.string_of_int (Z.to_int z).

Definition cancelledError : Js.Error :=
  Js.mkError Js.ClamAVError "ClamAVError" "Request was cancelled"
             (Some "CANCELLED"%string) (Some 499).

Definition timeoutError (ms : Z) : Js.Error :=
  Js.mkError Js.ClamAVTimeoutError "ClamAVTimeoutError"
             ("Request timed out after " ++ showZ ms ++ "ms")
             (Some "TIMEOUT"%string) (Some 504).

(** Lines 157-165: the caller's signal is linked to the controller. *)
Definition linkSignal (signal : option AbortSignal) : list FetchOp :=
  match signal with
  | Some s => if aborted s then [ControllerAbort (reason s)] else [ListenAbort]
  | None => []
  end.

(** [controller.signal.aborted] when [globalThis.fetch] is called. *)
Definition controllerAborted (signal : option AbortSignal) : bool :=
  match signal with
  | Some s => aborted s
  | None => false
  end.

(** [options?.signal?.aborted] inside the [catch]. *)
Definition signalAbortedAtCatch (signal : option AbortSignal) (x : Exchange)
  : bool :=
  match signal with
  | Some s => aborted s || abortedMeanwhile x
  | None => false
  end.

Definition fetch (transport : Transport) (baseUrl : string) (clientTimeout : Z)
           (path : string) (options : option RequestOptions)
  : list FetchOp * Settled Response :=
  let url := (baseUrl ++ path)%string in
  let timeout := timeoutOf options clientTimeout in
  let signal := signalOf options in
  let x := transport url (controllerAborted signal) in
  let result :=
    match settles x with
    | Fulfilled response => Fulfilled response
    | Rejected error =>
        if isAbortError error
        then if signalAbortedAtCatch signal x
             then Rejected (Js.VError cancelledError)
             else Rejected (Js.VError (timeoutError timeout))
        else Rejected error
    end in
  (SetTimeout timeout :: linkSignal signal
     ++ [GlobalFetch url (controllerAborted signal); ClearTimeout],
   result).

(** ** [scanMultiple] *)

Section ScanMultiple.

(** [this.scanFile(data, filename, options)]: how the promise of the
    [i]-th call settles. *)
Variable scanFile :
  nat -> Buffer -> string -> option RequestOptions -> Settled ScanResult.

(** [files.map(...)] followed by [Promise.allSettled]: one settlement per
    file, in the order of [files]; [i] is the index of the first file. *)
Fixpoint allSettled (i : nat) (files : list FileEntry)
         (options : option RequestOptions) : list (Settled ScanResult) :=
  match files with
  | [] => []
  | file :: rest =>
      scanFile i (data file) (fileName file) options
        :: allSettled (S i) rest options
  end.

(** [err instanceof Error ? err.message : String(err)] *)
Definition messageOf (err : Js.Value) : string :=
  match err with
  | Js.VError e => Js.message e
  | Js.VOther _ => Js.toString err
  end.

(** The body of the [for] loop (lines 127-137): what is yielded for one
    settlement. *)
Definition yieldFor (result : Settled ScanResult) : ScanResult :=
  match result with
  | Fulfilled value => value
  | Rejected err => mkScanResult "ERROR" (messageOf err) 0%Q None false
  end.

(** The generator drained: what it yields and how it ends. *)
Definition scanMultiple (files : list FileEntry)
           (options : option RequestOptions) : list ScanResult * Js.Ending :=
  (map yieldFor (allSettled 0 files options), Js.Returned).

End ScanMultiple.

End Rest.

(* ===================================================================== *)
(** * Reading the models: what a suspended generator still owes, and what
      the Frame Sender writes for a given list of chunks *)
(* ===================================================================== *)

Module ChunkerModel.

Import Chunker.

Section WithFrameSize.

Variable F : Z.

(** The bytes a suspended generator has still to hand out. *)
Definition remaining (g : Gen) (l : list Buffer) : Buffer :=
  match g with
  | Start _ => Buf.concat l
  | AfterYield merged _ => subarrayFrom merged F ++ Buf.concat l
  | AfterLast | Completed => []
  end.

(** The generator states reached on a source that does not fail; [l] is
    the list of fragments not yet read. *)
Definition inv (g : Gen) (l : list Buffer) : Prop :=
  match g with
  | Start source => source = ofList l
  | AfterYield merged source => source = ofList l /\ F <= len merged
  | AfterLast | Completed => l = []
  end.

(** What one [next()] does, in terms of [remaining]. *)
Definition stepSpec (before : Buffer) (s : Step) : Prop :=
  match s with
  | Done => before = []
  | Throw _ => False
  | Yield b g' =>
      exists l', inv g' l'
                 /\ before = b ++ remaining g' l'
                 /\ 0 < len b <= F
                 /\ (len b < F -> g' = AfterLast)
  end.

End WithFrameSize.

End ChunkerModel.

Module SenderModel.

Import Grpc.

Section WithFilename.

Variable fname : string.

(** The loop of [sendStreamChunks] over a list of chunks. *)
Fixpoint feed (chunks : list Buffer) (prevChunk : option Buffer)
         (isFirst : bool) (written : list ScanStreamRequest)
  : option Buffer * bool * list ScanStreamRequest :=
  match chunks with
  | [] => (prevChunk, isFirst, written)
  | c :: cs =>
      let '(prevChunk', isFirst', written') :=
        onChunk fname c prevChunk isFirst written in
      feed cs prevChunk' isFirst' written'
  end.

Definition finish (ending : Js.Ending)
           (st : option Buffer * bool * list ScanStreamRequest)
  : list ScanStreamRequest :=
  let '(prevChunk, isFirst, written) := st in
  match ending with
  | Js.Returned => flush fname prevChunk isFirst written
  | Js.Raised _ => written
  end.

(** The frames after the first: no label, the terminal flag on the last
    one only. *)
Fixpoint unlabelled (chunks : list Buffer) : list ScanStreamRequest :=
  match chunks with
  | [] => []
  | c :: cs => mkRequest c "" (match cs with [] => true | _ => false end)
                 :: unlabelled cs
  end.

Definition isNil (chunks : list Buffer) : bool :=
  match chunks with [] => true | _ => false end.

(** What [sendStreamChunks] writes for a list of chunks. *)
Definition labelled (chunks : list Buffer) : list ScanStreamRequest :=
  match chunks with
  | [] => []
  | c :: cs => mkRequest c fname (isNil cs) :: unlabelled cs
  end.

End WithFilename.

Definition hasLabel (r : ScanStreamRequest) : bool :=
  negb (String.eqb (filename r) "").

End SenderModel.

Module DriverModel.

Import Grpc.

(** What has been delivered is the first [yielded] buffered outcomes, and
    a generator inside its [await] has stored a resolver and has not seen
    the end of the exchange. *)
Record Inv (d : Driver) : Prop := mkInv {
  inv_delivered : delivered d = firstn (yielded d) (results (state d));
  inv_yielded : (yielded d <= List.length (results (state d)))%nat;
  inv_awaiting :
    phase d = Awaiting ->
    resolveNext (state d) = true /\ done (state d) = false
}.

End DriverModel.

Module Fixtures.

Import Types.


(** The signal of a controller on which [abort()] has been called: its
    reason is the default [AbortError]. *)
Definition abortedSignal : AbortSignal :=
  mkSignal true
           (Js.VError (Js.mkError Js.DOMException "AbortError"
                                  "This operation was aborted" None None)).

Definition abortedOptions : option RequestOptions :=
  Some (mkOptions (Some abortedSignal) None).

End Fixtures.

(* ===================================================================== *)
(** * The rest of src/utils/stream.ts, src/errors.ts and
      src/utils/validation.ts *)
(* ===================================================================== *)

Module StreamUtil.

Import Chunker.

(** [bufferToStream(buf)]: [Readable.from(buf)]. *)
Definition bufferToStream (buf : Buffer) : Source := Chunk buf Eof.

(** The loop of [streamToBuffer] (and of the gRPC client's
    [collectStream], which is the same code): every fragment is pushed on
    [chunks]; a failure of the stream leaves the function. *)
Fixpoint gather (chunks : list Buffer) (readable : Source)
  : Rest.Settled Buffer :=
  match readable with
  | Eof => Rest.Fulfilled (Buf.concat chunks)
  | Chunk chunk rest => gather (chunks ++ [chunk]) rest
  | Broken v => Rest.Rejected v
  end.

Definition streamToBuffer (readable : Source) : Rest.Settled Buffer :=
  gather [] readable.

Definition collectStream (stream : Source) : Rest.Settled Buffer :=
  gather [] stream.

(** A stream that hands out [fragments] and then fails with [v]. *)
Fixpoint failing (fragments : list Buffer) (v : Js.Value) : Source :=
  match fragments with
  | [] => Broken v
  | b :: rest => Chunk b (failing rest v)
  end.

(** All the bytes a stream hands out, and how it ends. *)
Fixpoint contents (s : Source) : Buffer :=
  match s with
  | Eof | Broken _ => []
  | Chunk b rest => b ++ contents rest
  end.

Fixpoint ending (s : Source) : Js.Ending :=
  match s with
  | Eof => Js.Returned
  | Broken v => Js.Raised v
  | Chunk _ rest => ending rest
  end.

Section WithFrameSize.

Variable F : Z.

(** What a suspended [chunkStream] still owes, and how its stream will
    end, for any stream. *)
Definition owed (g : Gen) : Buffer :=
  match g with
  | Start s => contents s
  | AfterYield merged s => subarrayFrom merged F ++ contents s
  | AfterLast | Completed => []
  end.

Definition willEnd (g : Gen) : Js.Ending :=
  match g with
  | Start s | AfterYield _ s => ending s
  | AfterLast | Completed => Js.Returned
  end.

Definition sound (g : Gen) : Prop :=
  match g with
  | AfterYield merged _ => F <= len merged
  | _ => True
  end.

Definition stepsTo (before : Buffer) (e : Js.Ending) (s : Step) : Prop :=
  match s with
  | Done => before = [] /\ e = Js.Returned
  | Throw v => e = Js.Raised v /\ len before < F
  | Yield b g' =>
      sound g'
      /\ before = b ++ owed g'
      /\ willEnd g' = e
      /\ 0 < len b <= F
      /\ (len b < F -> g' = AfterLast)
  end.

(** What a run gives, by the way the stream ends. *)
Definition runSpec (owes : Buffer) (e : Js.Ending) (frames : list Buffer)
  : Prop :=
  match e with
  | Js.Returned => Buf.concat frames = owes /\ wellSized F frames
  | Js.Raised _ =>
      Forall (fun b => len b = F) frames
      /\ exists lost, owes = Buf.concat frames ++ lost /\ len lost < F
  end.

End WithFrameSize.

End StreamUtil.

Module Errors.

(** The constructors of src/errors.ts. *)
Definition newClamAVError (message code : string) (statusCode : option Z)
  : Js.Error :=
  Js.mkError Js.ClamAVError "ClamAVError" message (Some code) statusCode.

Definition newConnectionError (message : string) : Js.Error :=
  Js.mkError Js.ClamAVConnectionError "ClamAVConnectionError" message
             (Some "CONNECTION_ERROR"%string) None.

Definition newTimeoutError (message : string) (statusCode : option Z)
  : Js.Error :=
  Js.mkError Js.ClamAVTimeoutError "ClamAVTimeoutError" message
             (Some "TIMEOUT"%string) statusCode.

Definition newValidationError (message : string) (statusCode : option Z)
  : Js.Error :=
  Js.mkError Js.ClamAVValidationError "ClamAVValidationError" message
             (Some "VALIDATION_ERROR"%string) statusCode.

Definition newServiceError (message : string) (statusCode : option Z)
  : Js.Error :=
  Js.mkError Js.ClamAVServiceError "ClamAVServiceError" message
             (Some "SERVICE_ERROR"%string) statusCode.

(** [e instanceof ClamAVError]: the base class or one of its subclasses. *)
Definition isClamAV (e : Js.Error) : bool :=
  match Js.cls e with
  | Js.PlainError | Js.DOMException => false
  | _ => true
  end.

(** [error instanceof ClamAVError] on a thrown value. *)
Definition instanceOfClamAVError (error : Js.Value) : bool :=
  match error with
  | Js.VError e => isClamAV e
  | Js.VOther _ => false
  end.

End Errors.

Module Validation.

Import Chunker.

(** The three kinds of input of [resolveInput]. *)
Inductive Input : Type :=
| InPath (path : string)
| InBuffer (buffer : Buffer)
| InReadable (readable : Source).

Record ResolvedInput : Type := mkResolved {
  stream : Source;
  buffer : option Buffer;
  filename : string;
  size : option Z
}.

(** The file system and [path.basename], as [resolveInput] uses them. *)
Record Fs : Type := mkFs {
  basename : string -> string;
  stat : string -> Rest.Settled Z;          (* the size, or the failure *)
  createReadStream : string -> Source
}.

(** [a ?? b] *)
Definition nullish {A : Type} (a : option A) (b : A) : A :=
  match a with
  | Some x => x
  | None => b
  end.

Definition resolveInput (fs : Fs) (input : Input) (filename : option string)
  : Rest.Settled ResolvedInput :=
  match input with
  | InPath path =>
      match stat fs path with
      | Rest.Rejected v => Rest.Rejected v
      | Rest.Fulfilled fileSize =>
          Rest.Fulfilled
            (mkResolved (createReadStream fs path) None
                        (nullish filename (basename fs path))
                        (Some fileSize))
      end
  | InBuffer b =>
      Rest.Fulfilled
        (mkResolved (Chunk b Eof) (Some b) (nullish filename "file"%string)
                    (Some (len b)))
  | InReadable s =>
      Rest.Fulfilled
        (mkResolved s None (nullish filename "file"%string) None)
  end.

(** [if (filename) return filename]: an empty string is falsy. *)
Definition deriveFilename (fs : Fs) (input : Input) (filename : option string)
  : string :=
  match filename with
  | Some f =>
      if String.eqb f "" then
        match input with
        | InPath path => basename fs path
        | _ => "file"
        end
      else f
  | None =>
      match input with
      | InPath path => basename fs path
      | _ => "file"
      end
  end.

End Validation.

(* ===================================================================== *)
(** * The rest of the gRPC client: the sender task of [scanMultiple] *)
(* ===================================================================== *)

Module GrpcSender.

Import Chunker Grpc.

(** Lines 212-225: every file in turn is sent with [sendStreamChunks],
    then [call.end()]; a failure leaves the loop for the [catch], which
    cancels the call. [call] is what the call object has received. *)
Fixpoint submitFiles (fuel : nat) (files : list Types.FileEntry)
         (call : list CallOp) : option (list CallOp * Js.Ending) :=
  match files with
  | [] => Some (call ++ [End], Js.Returned)
  | file :: rest =>
      match sendLoop fuel (Types.fileName file)
                     (Start (readableFrom (Types.data file))) None true []
      with
      | None => None
      | Some (written, Js.Returned) =>
          submitFiles fuel rest (call ++ map Write written)
      | Some (written, Js.Raised v) =>
          Some (call ++ map Write written ++ [Cancel], Js.Raised v)
      end
  end.

(** The frames among the operations of a call. *)
Fixpoint framesOf (call : list CallOp) : list ScanStreamRequest :=
  match call with
  | [] => []
  | Write r :: rest => r :: framesOf rest
  | _ :: rest => framesOf rest
  end.

(** [file.data.length > 0] *)
Definition nonEmpty (file : Types.FileEntry) : bool :=
  match Types.data file with
  | [] => false
  | _ => true
  end.

End GrpcSender.

(* ===================================================================== *)
(** * The rest of the gRPC client: the unary operations *)
(* ===================================================================== *)

Module GrpcOps.

Import Chunker Validation Grpc.

(** The arguments of the callback of a unary call. *)
Inductive Reply (A : Type) : Type :=
| Failed (error : ServiceError)
| Replied (response : A).

Arguments Failed {A} error.
Arguments Replied {A} response.

(** [version]: thrown at once. *)
Definition version (options : option Types.RequestOptions)
  : list CallOp * Rest.Settled unit :=
  ([], Rest.Rejected
         (Js.VError (Errors.newValidationError
                       "version() is not supported over gRPC" None))).

(** [scanFile]: the input is resolved and read first; [reply] is what the
    transport answers to the request made of the bytes and the
    filename. *)
Definition scanFile (fs : Fs)
           (reply : Buffer -> string -> Reply GrpcScanResponse)
           (input : Input) (filename : option string)
           (options : option Types.RequestOptions)
  : list CallOp * Rest.Settled Types.ScanResult :=
  match resolveInput fs input filename with
  | Rest.Rejected v => ([], Rest.Rejected v)
  | Rest.Fulfilled resolved =>
      match match buffer resolved with
            | Some b => Rest.Fulfilled b
            | None => StreamUtil.collectStream (stream resolved)
            end
      with
      | Rest.Rejected v => ([], Rest.Rejected v)
      | Rest.Fulfilled data =>
          (Grpc.scanFile options,
           match reply data (Validation.filename resolved) with
           | Failed error => Rest.Rejected (Js.VError (mapGrpcError error))
           | Replied response => Rest.Fulfilled (toScanResult response)
           end)
      end
  end.

(** [healthCheck]: the call is started at once; [reply] is what the
    transport answers. *)
Record GrpcHealthCheckResponse : Type := mkHealthResponse {
  health_status : string;
  health_message : string
}.

Record HealthCheckResult : Type := mkHealth {
  healthy : bool;
  healthMessage : string
}.

Definition healthCheck (reply : Reply GrpcHealthCheckResponse)
           (options : option Types.RequestOptions)
  : list CallOp * Rest.Settled HealthCheckResult :=
  (Grpc.healthCheck options,
   match reply with
   | Failed error => Rest.Rejected (Js.VError (mapGrpcError error))
   | Replied response =>
       Rest.Fulfilled
         (mkHealth (String.eqb (health_status response) "healthy")
                   (Js.orString (health_message response)
                                (health_status response)))
   end).

(** [scanStream]: the input is resolved first, not read; then the call is
    started, the signal wired, and the chunks sent, from
    [Readable.from(resolved.buffer)] when there is a buffer. A failure of
    the sending cancels the call. The result is what the call object has
    received and how the operation ends on its own side: [Js.Raised v]
    when resolving or sending failed with [v], which rejects the promise
    (unless the answer of the transport settled it before), and
    [Js.Returned] when the promise is left to the answer of the
    transport. *)
Definition scanStream (fs : Fs) (fuel : nat)
           (input : Input) (filename : option string)
           (options : option Types.RequestOptions)
  : option (list CallOp * Js.Ending) :=
  match resolveInput fs input filename with
  | Rest.Rejected v => Some ([], Js.Raised v)
  | Rest.Fulfilled resolved =>
      let stream :=
        match buffer resolved with
        | Some b => readableFrom b
        | None => Validation.stream resolved
        end in
      match sendLoop fuel (Validation.filename resolved) (Start stream)
                     None true []
      with
      | None => None
      | Some (written, Js.Returned) =>
          Some (Grpc.scanStream options written, Js.Returned)
      | Some (written, Js.Raised v) =>
          Some (Grpc.scanStream options written ++ [Cancel], Js.Raised v)
      end
  end.

End GrpcOps.

Module ResultModel.

(** What every [ScanResult] made by [toScanResult] satisfies. *)
Definition consistent (r : Types.ScanResult) : Prop :=
  Types.status r <> ""%string
  /\ Types.isInfected r = String.eqb (Types.status r) "FOUND"
  /\ Types.filename r <> Some ""%string.

End ResultModel.

(* ===================================================================== *)
(** * The rest of the REST client *)
(* ===================================================================== *)

Module RestOps.

Import Stdlib.Strings.Ascii.
Import Types Errors Validation.

(** [url.replace(/\/+$/, '')]: the run of slashes at the end of the
    string, if any, is removed. *)
Fixpoint stripTrailingSlashes (url : string) : string :=
  match url with
  | EmptyString => EmptyString
  | String c rest =>
      match stripTrailingSlashes rest with
      | EmptyString =>
          if Ascii.eqb c "/"%char then EmptyString else String c EmptyString
      | kept => String c kept
      end
  end.

(** A run of [n] slashes. *)
Fixpoint slashes (n : nat) : string :=
  match n with
  | O => EmptyString
  | S n' => String "/"%char (slashes n')
  end.

(** [ClamAVClientOptions], as far as the constructors read it ([headers],
    [tls] and [grpc] are passed on and not looked at here). *)
Inductive TransportName : Type := REST | GRPC.

Record ClientOptions : Type := mkClientOptions {
  url : string;
  clientTimeoutOption : option Z;
  transportOption : option TransportName
}.

Record RestClient : Type := mkRestClient {
  baseUrl : string;
  clientTimeout : Z
}.

(** The constructor of [ClamAVRestClient]. *)
Definition newRestClient (options : ClientOptions) : RestClient :=
  mkRestClient (stripTrailingSlashes (url options))
               (nullish (clientTimeoutOption options) 300000).

(** The properties of a JSON body that the client reads; a property that
    is absent or [null] is [None]. *)
Record Body : Type := mkBody {
  bodyStatus : option string;
  bodyMessage : option string;
  bodyTime : option Q
}.

(** What [response.json()] resolves to. The cast to the body type checks
    nothing: the value may be [null], and reading a property of [null]
    throws a [TypeError]. Of any other value (an object, but also a
    number, a string, a boolean or an array, on which the three
    properties are absent) the client reads the properties above. *)
Inductive Json : Type :=
| JNull
| JValue (fields : Body).

(** The [TypeError] thrown by [body.property] when [body] is [null]. *)
Definition nullTypeError (property : string) : Js.Error :=
  Js.mkError Js.PlainError "TypeError"
             ("Cannot read properties of null (reading '" ++ property ++ "')")
             None None.

(** What a call depends on: the file system, the transport, and how
    [response.json()] settles. *)
Record Env : Type := mkEnv {
  fs : Fs;
  transport : Rest.Transport;
  json : Rest.Response -> Rest.Settled Json
}.

(** [handleErrorStatus]: [None] when it returns, [Some e] when it throws.
    The body is read only when the response is not ok, [body.message]
    first. *)
Definition handleErrorStatus (response : Rest.Response) (body : Json)
  : option Js.Error :=
  if Rest.ok response then None
  else
    match body with
    | JNull => Some (nullTypeError "message")
    | JValue fields =>
        let message :=
          nullish (bodyMessage fields)
                  (nullish (bodyStatus fields)
                           ("HTTP " ++ Rest.showZ (Rest.httpStatus response))%string)
        in
        let st := Rest.httpStatus response in
        Some (if st =? 400 then newValidationError message (Some 400)
              else if st =? 413 then newValidationError message (Some 413)
              else if st =? 499 then newClamAVError message "CANCELLED" (Some 499)
              else if st =? 502 then newServiceError message (Some 502)
              else if st =? 504 then newTimeoutError message (Some 504)
              else newClamAVError message "UNKNOWN" (Some st))
    end.

(** [assertOk] *)
Definition assertOk (response : Rest.Response) : option Js.Error :=
  if Rest.ok response then None
  else Some (newClamAVError ("HTTP " ++ Rest.showZ (Rest.httpStatus response))
                            "UNKNOWN" (Some (Rest.httpStatus response))).

(** [parseScanResponse]: the body is awaited, then [handleErrorStatus],
    then [body.status] is read. Nothing here is caught. *)
Definition parseScanResponse (env : Env) (response : Rest.Response)
           (filename : option string) : Rest.Settled ScanResult :=
  match json env response with
  | Rest.Rejected v => Rest.Rejected v
  | Rest.Fulfilled body =>
      match handleErrorStatus response body with
      | Some e => Rest.Rejected (Js.VError e)
      | None =>
          match body with
          | JNull => Rest.Rejected (Js.VError (nullTypeError "status"))
          | JValue fields =>
              let status := nullish (bodyStatus fields) "ERROR"%string in
              Rest.Fulfilled
                (mkScanResult status
                              (nullish (bodyMessage fields) ""%string)
                              (nullish (bodyTime fields) 0%Q)
                              filename
                              (String.eqb status "FOUND"))
          end
      end
  end.

(** The [catch] every operation ends with:
    [if (error instanceof ClamAVError) throw error;
     throw new ClamAVConnectionError('Failed to connect to ClamAV API', error)] *)
Definition rethrow (error : Js.Value) : Js.Value :=
  if instanceOfClamAVError error then error
  else Js.VError (newConnectionError "Failed to connect to ClamAV API").

Record HealthCheckResult : Type := mkHealth {
  healthy : bool;
  healthMessage : option string
}.

(** Each operation gives what it did to the transport and how its promise
    settles. In [healthCheck] the body is read inside the [try]:
    [body.message] of a [null] body throws there and is caught. *)
Definition healthCheck (c : RestClient) (env : Env)
           (options : option RequestOptions)
  : list Rest.FetchOp * Rest.Settled HealthCheckResult :=
  let '(ops, fetched) :=
    Rest.fetch (transport env) (baseUrl c) (clientTimeout c)
               "/api/health-check" options in
  (ops,
   match fetched with
   | Rest.Rejected error => Rest.Rejected (rethrow error)
   | Rest.Fulfilled response =>
       match json env response with
       | Rest.Rejected error => Rest.Rejected (rethrow error)
       | Rest.Fulfilled JNull =>
           Rest.Rejected (rethrow (Js.VError (nullTypeError "message")))
       | Rest.Fulfilled (JValue fields) =>
           Rest.Fulfilled
             (mkHealth
                (Rest.ok response
                 && match bodyMessage fields with
                    | Some m => String.eqb m "ok"
                    | None => false
                    end)
                (bodyMessage fields))
       end
   end).

(** [version] returns the body as it is, without reading it. *)
Definition version (c : RestClient) (env : Env)
           (options : option RequestOptions)
  : list Rest.FetchOp * Rest.Settled Json :=
  let '(ops, fetched) :=
    Rest.fetch (transport env) (baseUrl c) (clientTimeout c)
               "/api/version" options in
  (ops,
   match fetched with
   | Rest.Rejected error => Rest.Rejected (rethrow error)
   | Rest.Fulfilled response =>
       match assertOk response with
       | Some e => Rest.Rejected (rethrow (Js.VError e))
       | None =>
           match json env response with
           | Rest.Rejected error => Rest.Rejected (rethrow error)
           | Rest.Fulfilled body => Rest.Fulfilled body
           end
       end
   end).

(** [resolved.buffer ?? (await streamToBuffer(resolved.stream))] *)
Definition bufferOf (resolved : ResolvedInput) : Rest.Settled Buffer :=
  match buffer resolved with
  | Some b => Rest.Fulfilled b
  | None => StreamUtil.streamToBuffer (stream resolved)
  end.

(** [scanFile] and [scanStream] have the same shape and differ in the
    path and in the request they build. The promise of
    [parseScanResponse] is returned without [await], so its rejection
    does not pass through the [catch]. *)
Definition scanVia (path : string) (c : RestClient) (env : Env)
           (input : Input) (filename : option string)
           (options : option RequestOptions)
  : list Rest.FetchOp * Rest.Settled ScanResult :=
  match resolveInput (fs env) input filename with
  | Rest.Rejected error => ([], Rest.Rejected (rethrow error))
  | Rest.Fulfilled resolved =>
      match bufferOf resolved with
      | Rest.Rejected error => ([], Rest.Rejected (rethrow error))
      | Rest.Fulfilled _ =>
          let '(ops, fetched) :=
            Rest.fetch (transport env) (baseUrl c) (clientTimeout c)
                       path options in
          (ops,
           match fetched with
           | Rest.Rejected error => Rest.Rejected (rethrow error)
           | Rest.Fulfilled response =>
               parseScanResponse env response
                                 (Some (Validation.filename resolved))
           end)
      end
  end.

Definition scanFile : RestClient -> Env -> Input -> option string
                      -> option RequestOptions
                      -> list Rest.FetchOp * Rest.Settled ScanResult :=
  scanVia "/api/scan".

Definition scanStream : RestClient -> Env -> Input -> option string
                        -> option RequestOptions
                        -> list Rest.FetchOp * Rest.Settled ScanResult :=
  scanVia "/api/stream-scan".

(** [scanMultiple]: [files.map((file) => this.scanFile(file.data,
    file.filename, options))], every call with the options of
    [scanMultiple]; the [i]-th call meets the environment [envs i].
    [requests] is what each call did to the transport. *)
Fixpoint requests (c : RestClient) (envs : nat -> Env) (i : nat)
         (files : list FileEntry) (options : option RequestOptions)
  : list (list Rest.FetchOp) :=
  match files with
  | [] => []
  | file :: rest =>
      fst (scanFile c (envs i) (InBuffer (data file)) (Some (fileName file))
                    options)
        :: requests c envs (S i) rest options
  end.

Definition scanMultiple (c : RestClient) (envs : nat -> Env)
           (files : list FileEntry) (options : option RequestOptions)
  : list (list Rest.FetchOp) * (list ScanResult * Js.Ending) :=
  (requests c envs 0 files options,
   Rest.scanMultiple
     (fun i data name o =>
        snd (scanFile c (envs i) (InBuffer data) (Some name) o))
     files options).

End RestOps.

(* ===================================================================== *)
(** * The facade (src/index.ts) *)
(* ===================================================================== *)

Module Facade.

Import RestOps.

Definition detectTransport (url : string) : TransportName :=
  if String.prefix "http://" url || String.prefix "https://" url
  then REST
  else GRPC.

(** [options.transport ?? this.detectTransport(options.url)] *)
Definition transportFor (options : ClientOptions) : TransportName :=
  Validation.nullish (transportOption options) (detectTransport (url options)).

End Facade.

(* ===================================================================== *)
(** * Facts about buffers *)
(* ===================================================================== *)

Module BufFacts.

Lemma len_nonneg (b : Buffer) : 0 <= len b.
Proof. unfold len; lia. Qed.

Lemma len_app (a b : Buffer) : len (a ++ b) = len a + len b.
Proof. unfold len; rewrite length_app; lia. Qed.

Lemma len_nil_iff (b : Buffer) : len b = 0 <-> b = [].
Proof.
  unfold len; split; intros H.
  - destruct b; [reflexivity | cbn in H; lia].
  - subst; reflexivity.
Qed.

(** Within range, [subarray b 0 n] is the first [n] bytes. *)
Lemma subarray_prefix (b : Buffer) (n : Z) :
  0 <= n <= len b -> subarray b 0 n = firstn (Z.to_nat n) b.
Proof.
  intros H; unfold subarray, clampIndex.
  replace (0 <? 0) with false by reflexivity.
  destruct (Z.ltb_spec n 0) as [Hn | Hn]; [lia|].
  rewrite (Z.min_l 0), (Z.min_l n) by lia.
  cbn [Z.to_nat skipn]. now rewrite Z.sub_0_r.
Qed.

(** Within range, [subarrayFrom b n] drops the first [n] bytes. *)
Lemma subarrayFrom_suffix (b : Buffer) (n : Z) :
  0 <= n <= len b -> subarrayFrom b n = skipn (Z.to_nat n) b.
Proof.
  intros H; unfold subarrayFrom, subarray, clampIndex.
  destruct (Z.ltb_spec n 0) as [Hn | Hn]; [lia|].
  destruct (Z.ltb_spec (len b) 0) as [Hl | Hl]; [lia|].
  rewrite (Z.min_l n), Z.min_id by lia.
  apply firstn_all2. rewrite length_skipn. unfold len in *; lia.
Qed.

Lemma split_at (b : Buffer) (n : Z) :
  0 <= n <= len b -> subarray b 0 n ++ subarrayFrom b n = b.
Proof.
  intros H. rewrite subarray_prefix, subarrayFrom_suffix by assumption.
  apply firstn_skipn.
Qed.

Lemma len_subarray_prefix (b : Buffer) (n : Z) :
  0 <= n <= len b -> len (subarray b 0 n) = n.
Proof.
  intros H. rewrite subarray_prefix by assumption.
  unfold len in *. rewrite length_firstn. lia.
Qed.

Lemma len_subarrayFrom (b : Buffer) (n : Z) :
  0 <= n <= len b -> len (subarrayFrom b n) = len b - n.
Proof.
  intros H. rewrite subarrayFrom_suffix by assumption.
  unfold len in *. rewrite length_skipn. lia.
Qed.

Lemma concat_snoc (l : list Buffer) (b : Buffer) :
  Buf.concat (l ++ [b]) = Buf.concat l ++ b.
Proof.
  unfold Buf.concat. rewrite concat_app. cbn. now rewrite app_nil_r.
Qed.

End BufFacts.

(* ===================================================================== *)
(** * The Chunker for a positive frame size *)
(* ===================================================================== *)

Module ChunkerFacts.

Import Chunker ChunkerModel BufFacts.

Lemma merge_concat (pending : list Buffer) : merge pending = Buf.concat pending.
Proof.
  destruct pending as [| b [| c rest]]; try reflexivity.
  cbn. now rewrite app_nil_r.
Qed.

Lemma collect_S (F : Z) (n : nat) (g : Gen) :
  collect F (S n) g =
  match next F g with
  | Done => Some ([], Js.Returned)
  | Throw v => Some ([], Js.Raised v)
  | Yield frame g' =>
      match collect F n g' with
      | Some (frames, ending) => Some (frame :: frames, ending)
      | None => None
      end
  end.
Proof. reflexivity. Qed.

(** More fuel never changes a finished run. *)
Lemma collect_mono (F : Z) (n : nat) :
  forall g r, collect F n g = Some r ->
  forall m, (n <= m)%nat -> collect F m g = Some r.
Proof.
  induction n as [| n IH]; intros g r H m Hm; [discriminate|].
  destruct m as [| m]; [lia|].
  cbn in *. destruct (next F g) as [frame g' | | v]; try assumption.
  destruct (collect F n g') as [[frames ending]|] eqn:E; [|discriminate].
  rewrite (IH _ _ E m) by lia. assumption.
Qed.

(** So [chunkStream] has at most one outcome. *)
Lemma chunkStream_functional (F : Z) (source : Source) frames1 e1 frames2 e2 :
  chunkStream F source frames1 e1 ->
  chunkStream F source frames2 e2 ->
  frames1 = frames2 /\ e1 = e2.
Proof.
  intros [n1 H1] [n2 H2].
  apply collect_mono with (m := Nat.max n1 n2) in H1; [|lia].
  apply collect_mono with (m := Nat.max n1 n2) in H2; [|lia].
  rewrite H1 in H2. now inversion H2.
Qed.

Section Positive.

Variable F : Z.
Hypothesis F_pos : 0 < F.

Lemma emit_spec (pending : list Buffer) (l : list Buffer) :
  F <= len (Buf.concat pending) ->
  stepSpec F (Buf.concat pending ++ Buf.concat l) (emit F pending (ofList l)).
Proof.
  intros H. unfold emit. rewrite merge_concat. cbn.
  exists l. cbn. repeat split; try lia.
  - rewrite app_assoc. f_equal. symmetry. apply split_at.
    pose proof (len_nonneg (Buf.concat pending)). lia.
  - rewrite len_subarray_prefix; lia.
  - rewrite len_subarray_prefix; lia.
  - rewrite len_subarray_prefix; lia.
Qed.

Lemma forLoop_spec (l : list Buffer) :
  forall pending pendingBytes,
    pendingBytes = len (Buf.concat pending) ->
    pendingBytes < F ->
    stepSpec F (Buf.concat pending ++ Buf.concat l)
             (forLoop F pending pendingBytes (ofList l)).
Proof.
  induction l as [| buf l IH]; intros pending pb Hpb Hlt; cbn [ofList forLoop].
  - destruct (Z.ltb_spec 0 pb) as [Hp | Hp].
    + cbn. exists []. cbn. rewrite merge_concat, !app_nil_r.
      repeat split; try lia; reflexivity.
    + cbn. rewrite app_nil_r. apply len_nil_iff.
      pose proof (len_nonneg (Buf.concat pending)). lia.
  - assert (Hsnoc : Buf.concat pending ++ Buf.concat (buf :: l)
                    = Buf.concat (pending ++ [buf]) ++ Buf.concat l).
    { rewrite concat_snoc, <- app_assoc. reflexivity. }
    assert (Hlen : pb + len buf = len (Buf.concat (pending ++ [buf]))).
    { rewrite concat_snoc, len_app. lia. }
    rewrite Hsnoc.
    destruct (Z.leb_spec F (pb + len buf)) as [Hge | Hless].
    + apply emit_spec. lia.
    + apply IH; assumption.
Qed.

Lemma resume_spec (merged : Buffer) (l : list Buffer) :
  F <= len merged ->
  stepSpec F (subarrayFrom merged F ++ Buf.concat l)
           (resume F merged (ofList l)).
Proof.
  intros Hm. unfold resume.
  set (remainder := subarrayFrom merged F).
  assert (Hr : 0 <= len remainder) by apply len_nonneg.
  destruct (Z.ltb_spec 0 (len remainder)) as [Hp | Hz].
  - assert (E : remainder ++ Buf.concat l
                 = Buf.concat [remainder] ++ Buf.concat l)
      by (cbn; now rewrite app_nil_r).
    rewrite E.
    destruct (Z.leb_spec F (len remainder)) as [Hge | Hless].
    + apply (emit_spec [remainder] l). cbn. rewrite app_nil_r. assumption.
    + apply (forLoop_spec l [remainder]);
        [cbn; now rewrite app_nil_r | assumption].
  - assert (remainder = []) as -> by (apply len_nil_iff; lia).
    destruct (Z.leb_spec F 0) as [Hge | Hless]; [lia|].
    apply (forLoop_spec l [] 0); [reflexivity | assumption].
Qed.

Lemma next_spec (g : Gen) (l : list Buffer) :
  inv F g l -> stepSpec F (remaining F g l) (next F g).
Proof.
  destruct g as [source | merged source | |]; cbn [inv remaining next].
  - intros ->. apply (forLoop_spec l [] 0); [reflexivity | assumption].
  - intros [-> Hm]. now apply resume_spec.
  - reflexivity.
  - reflexivity.
Qed.

Lemma wellSized_cons (b : Buffer) (frames : list Buffer) :
  0 < len b <= F ->
  (len b < F -> frames = []) ->
  wellSized F frames ->
  wellSized F (b :: frames).
Proof.
  intros Hb Hshort Hws. destruct frames as [| c frames]; [exact Hb|].
  split; [|exact Hws].
  destruct (Z.eq_dec (len b) F) as [E | NE]; [exact E|].
  assert (Hlt : len b < F) by lia. specialize (Hshort Hlt). discriminate.
Qed.

(** On a source that does not fail the generator finishes, within one
    call of [next] per remaining byte plus one; what it yields is the
    remaining bytes, cut into well-sized frames. *)
Lemma collect_spec (n : nat) :
  forall g l,
    inv F g l ->
    (List.length (remaining F g l) <= n)%nat ->
    exists frames,
      collect F (S n) g = Some (frames, Js.Returned)
      /\ Buf.concat frames = remaining F g l
      /\ wellSized F frames.
Proof.
  induction n as [| n IH]; intros g l Hinv Hlen;
    pose proof (next_spec g l Hinv) as Hs;
    rewrite collect_S; destruct (next F g) as [b g' | | v];
    cbn [stepSpec] in Hs.
  - destruct Hs as (l' & _ & Hrem & Hb & _).
    rewrite Hrem, length_app in Hlen. unfold len in Hb. lia.
  - exists []. repeat split. now rewrite Hs.
  - contradiction.
  - destruct Hs as (l' & Hinv' & Hrem & Hb & Hshort).
    assert (Hlen' : (List.length (remaining F g' l') <= n)%nat).
    { rewrite Hrem, length_app in Hlen. unfold len in Hb. lia. }
    destruct (IH g' l' Hinv' Hlen') as (frames & Hc & Hcat & Hws).
    rewrite Hc. exists (b :: frames). repeat split.
    + cbn. unfold Buf.concat in Hcat. rewrite Hcat. now rewrite Hrem.
    + apply wellSized_cons; try assumption.
      intros Hlt. rewrite (Hshort Hlt), collect_S in Hc. cbn in Hc.
      now inversion Hc.
  - exists []. repeat split. now rewrite Hs.
  - contradiction.
Qed.

(** [chunkStream] on a finite run of fragments. *)
Lemma chunkStream_total (fragments : list Buffer) :
  exists frames,
    chunkStream F (ofList fragments) frames Js.Returned
    /\ Buf.concat frames = Buf.concat fragments
    /\ wellSized F frames.
Proof.
  destruct (collect_spec (List.length (Buf.concat fragments))
                         (Start (ofList fragments)) fragments)
    as (frames & Hc & Hcat & Hws); [reflexivity | cbn; lia |].
  exists frames. repeat split; try assumption.
  eexists; exact Hc.
Qed.

End Positive.

(** [wellSized] in the words of the specification. *)
Lemma wellSized_removelast (F : Z) (frames : list Buffer) :
  wellSized F frames ->
  Forall (fun b => len b = F) (removelast frames)
  /\ (frames <> [] -> 0 < len (last frames []) <= F).
Proof.
  induction frames as [| b frames IH]; intros H.
  - split; [constructor | congruence].
  - destruct frames as [| c frames].
    + split; [constructor | intros _; exact H].
    + destruct H as [Hb Hrest]. destruct (IH Hrest) as [Hall Hlast].
      split.
      * cbn [removelast]. constructor; assumption.
      * intros _. cbn [last]. apply Hlast. discriminate.
Qed.

(** The total length of well-sized frames. *)
Lemma wellSized_total (F : Z) (frames : list Buffer) :
  wellSized F frames ->
  len (Buf.concat frames)
  = F * Z.of_nat (List.length (removelast frames)) + len (last frames []).
Proof.
  induction frames as [| b frames IH]; intros H.
  - cbn. lia.
  - destruct frames as [| c frames].
    + cbn. rewrite app_nil_r. lia.
    + destruct H as [Hb Hrest]. specialize (IH Hrest).
      change (Buf.concat (b :: c :: frames)) with (b ++ Buf.concat (c :: frames)).
      rewrite len_app, IH, Hb.
      cbn [removelast last List.length]. lia.
Qed.

End ChunkerFacts.

(* ===================================================================== *)
(** * The Chunker: round trip, frame sizes, non-positive frame size *)
(* ===================================================================== *)

Module ChunkerSpec.

Import Chunker BufFacts ChunkerFacts.

(** Frames that all have positive length and concatenate to nothing are
    no frames at all. *)
Lemma wellSized_empty (F : Z) (frames : list Buffer) :
  0 < F -> wellSized F frames -> Buf.concat frames = [] -> frames = [].
Proof.
  intros HF Hws Hcat. destruct frames as [| b frames]; [reflexivity|].
  exfalso. assert (Hb : 0 < len b).
  { destruct frames; cbn in Hws; lia. }
  change (Buf.concat (b :: frames)) with (b ++ Buf.concat frames) in Hcat.
  apply app_eq_nil in Hcat. destruct Hcat as [-> _]. cbn in Hb. lia.
Qed.

Lemma wellSized_single (F : Z) (frames : list Buffer) :
  wellSized F frames ->
  0 < len (Buf.concat frames) < F ->
  frames = [Buf.concat frames].
Proof.
  intros Hws Hlen. destruct frames as [| b [| c frames]].
  - cbn in Hlen. lia.
  - cbn. now rewrite app_nil_r.
  - exfalso. destruct Hws as [Hb _].
    change (Buf.concat (b :: c :: frames))
      with (b ++ Buf.concat (c :: frames)) in Hlen.
    rewrite len_app in Hlen.
    pose proof (len_nonneg (Buf.concat (c :: frames))). lia.
Qed.

Lemma wellSized_all_full (F : Z) (frames : list Buffer) :
  0 < F ->
  wellSized F frames ->
  (exists k, len (Buf.concat frames) = k * F) ->
  Forall (fun b => len b = F) frames.
Proof.
  intros HF Hws [k Hk].
  destruct frames as [| b0 frames0] eqn:E; [constructor|]. rewrite <- E in *.
  assert (Hframes : frames <> []) by (rewrite E; discriminate).
  clear E.
  destruct (wellSized_removelast F frames Hws) as [Hall Hlast].
  specialize (Hlast Hframes).
  pose proof (wellSized_total F frames Hws) as Htot.
  rewrite Hk in Htot.
  assert (Hfull : len (last frames []) = F).
  { set (m := Z.of_nat (List.length (removelast frames))) in *.
    set (r := len (last frames [])) in *.
    assert (Hr : r = F * (k - m)) by lia.
    assert (Hd : 0 < k - m) by nia.
    assert (Hd' : k - m <= 1) by nia.
    replace (k - m) with 1 in Hr by lia. lia. }
  rewrite (app_removelast_last [] Hframes).
  apply Forall_app. split; [assumption|].
  constructor; [assumption | constructor].
Qed.

(** C1. For every finite sequence of fragments and every frame size
    [F > 0], [chunkStream] runs to its end, and the frames it yields
    concatenate to the concatenation of the fragments, byte for byte and
    in order. In particular a total length below [F] gives one short
    frame, and a total length that [F] divides gives full frames only. *)
Theorem chunkStream_roundtrip (fragments : list Buffer) (F : Z) :
  0 < F ->
  (exists frames, chunkStream F (ofList fragments) frames Js.Returned)
  /\ (forall frames ending,
        chunkStream F (ofList fragments) frames ending ->
        ending = Js.Returned
        /\ Buf.concat frames = Buf.concat fragments
        /\ (0 < len (Buf.concat fragments) < F ->
            frames = [Buf.concat fragments])
        /\ ((exists k, len (Buf.concat fragments) = k * F) ->
            Forall (fun b => len b = F) frames)).
Proof.
  intros HF.
  destruct (chunkStream_total F HF fragments) as (frames0 & Hrun & Hcat & Hws).
  split; [exists frames0; exact Hrun|].
  intros frames ending H.
  destruct (chunkStream_functional _ _ _ _ _ _ H Hrun) as [-> ->].
  repeat split.
  - exact Hcat.
  - intros Hlen. rewrite <- Hcat in *. now apply wellSized_single with (F := F).
  - intros Hk. rewrite <- Hcat in Hk. now apply wellSized_all_full.
Qed.

Lemma chunkStream_roundtrip_witness :
  let fragments := [["001"; "002"; "003"]; []; ["004"; "005"]]%byte in
  0 < 2
  /\ (exists frames, chunkStream 2 (ofList fragments) frames Js.Returned)
  /\ (forall frames ending,
        chunkStream 2 (ofList fragments) frames ending ->
        ending = Js.Returned
        /\ Buf.concat frames = Buf.concat fragments
        /\ (0 < len (Buf.concat fragments) < 2 ->
            frames = [Buf.concat fragments])
        /\ ((exists k, len (Buf.concat fragments) = k * 2) ->
            Forall (fun b => len b = 2) frames)).
Proof.
  intros fragments. split; [lia|].
  apply (chunkStream_roundtrip fragments 2). lia.
Defined.

(** C2. For every finite sequence of fragments and every frame size
    [F > 0], every frame [chunkStream] yields except possibly the last
    has exactly [F] bytes, the last one has more than 0 and at most [F]
    bytes, and an empty input sequence gives no frame. *)
Theorem chunkStream_frame_sizes (fragments : list Buffer) (F : Z) :
  0 < F ->
  (exists frames, chunkStream F (ofList fragments) frames Js.Returned)
  /\ (forall frames ending,
        chunkStream F (ofList fragments) frames ending ->
        Forall (fun b => len b = F) (removelast frames)
        /\ (frames <> [] -> 0 < len (last frames []) <= F)
        /\ (fragments = [] -> frames = [])).
Proof.
  intros HF.
  destruct (chunkStream_total F HF fragments) as (frames0 & Hrun & Hcat & Hws).
  split; [exists frames0; exact Hrun|].
  intros frames ending H.
  destruct (chunkStream_functional _ _ _ _ _ _ H Hrun) as [-> ->].
  destruct (wellSized_removelast F frames0 Hws) as [Hall Hlast].
  repeat split; try assumption; try (now apply Hlast).
  intros ->. now apply wellSized_empty with (F := F).
Qed.

Lemma chunkStream_frame_sizes_witness :
  let fragments := [["001"; "002"; "003"]; []; ["004"; "005"]]%byte in
  0 < 2
  /\ (exists frames, chunkStream 2 (ofList fragments) frames Js.Returned)
  /\ (forall frames ending,
        chunkStream 2 (ofList fragments) frames ending ->
        Forall (fun b => len b = 2) (removelast frames)
        /\ (frames <> [] -> 0 < len (last frames []) <= 2)
        /\ (fragments = [] -> frames = [])).
Proof.
  intros fragments. split; [lia|].
  apply (chunkStream_frame_sizes fragments 2). lia.
Defined.

(** A small run, computed. *)
Example chunkStream_small :
  collect 2 10 (Start (ofList [["001"; "002"; "003"]; []; ["004"; "005"]]%byte))
  = Some ([["001"; "002"]; ["003"; "004"]; ["005"]]%byte, Js.Returned).
Proof. reflexivity. Qed.

(** The scenario of the specification: fragments of 70000, 10000 and
    50000 bytes at frame size 65536 give frames of 65536 and 64464
    bytes. *)
Example chunkStream_scenario :
  let fragment n := repeat "000"%byte (Z.to_nat n) in
  option_map (fun r => map len (fst r))
             (collect 65536 10
                (Start (ofList [fragment 70000; fragment 10000; fragment 50000])))
  = Some [65536; 64464].
Proof. vm_compute. reflexivity. Qed.

(** ** Frame size zero or negative *)

Section NonPositive.

Variable F : Z.
Hypothesis F_nonpos : F <= 0.

Lemma emit_yields (pending : list Buffer) (source : Source) :
  exists frame merged, emit F pending source = Yield frame (AfterYield merged source).
Proof. unfold emit. eauto. Qed.

(** Inside the [while] loop the test never fails. *)
Lemma resume_yields (merged : Buffer) (source : Source) :
  exists frame merged',
    resume F merged source = Yield frame (AfterYield merged' source).
Proof.
  unfold resume.
  set (remainder := subarrayFrom merged F).
  pose proof (len_nonneg remainder) as Hr.
  destruct (Z.ltb_spec 0 (len remainder)) as [Hp | Hz].
  - destruct (Z.leb_spec F (len remainder)) as [_ | Hless]; [|lia].
    apply emit_yields.
  - destruct (Z.leb_spec F 0) as [_ | Hless]; [|lia].
    apply emit_yields.
Qed.

Lemma collect_after_yield (fuel : nat) :
  forall merged source, collect F fuel (AfterYield merged source) = None.
Proof.
  induction fuel as [| fuel IH]; intros merged source; [reflexivity|].
  rewrite collect_S. cbn [next].
  destruct (resume_yields merged source) as (frame & merged' & ->).
  now rewrite IH.
Qed.

Lemma start_yields (buf : Buffer) (rest : Source) :
  exists frame merged,
    next F (Start (Chunk buf rest)) = Yield frame (AfterYield merged rest).
Proof.
  cbn [next forLoop]. pose proof (len_nonneg buf) as Hb.
  destruct (Z.leb_spec F (0 + len buf)) as [_ | Hless]; [|lia].
  apply emit_yields.
Qed.

End NonPositive.

(** C7, as the code has it. [chunkStream] does not look at the sign of
    the frame size, so a frame size [F <= 0] is never rejected. On an
    input with no fragment the generator ends normally with no frame. On
    an input with at least one fragment the [while] test always holds:
    every call of [next] yields a frame, and the generator neither ends
    nor throws, however long it is driven. *)
Theorem chunkStream_nonpositive (fragments : list Buffer) (F : Z) :
  F <= 0 ->
  (fragments = [] -> chunkStream F (ofList fragments) [] Js.Returned)
  /\ (fragments <> [] ->
      (exists frame g, next F (Start (ofList fragments)) = Yield frame g)
      /\ (forall fuel, collect F fuel (Start (ofList fragments)) = None)
      /\ (forall frames ending,
            ~ chunkStream F (ofList fragments) frames ending)).
Proof.
  intros HF. split.
  - intros ->. exists 1%nat. reflexivity.
  - intros Hne. destruct fragments as [| buf rest]; [congruence|].
    cbn [ofList].
    destruct (start_yields F HF buf (ofList rest)) as (frame & merged & Hn).
    assert (Hnone : forall fuel,
               collect F fuel (Start (Chunk buf (ofList rest))) = None).
    { intros [| fuel]; [reflexivity|].
      rewrite collect_S, Hn, collect_after_yield by assumption. reflexivity. }
    repeat split.
    + eauto.
    + exact Hnone.
    + intros frames ending [fuel H]. rewrite Hnone in H. discriminate.
Qed.

Lemma chunkStream_nonpositive_witness :
  let fragments := [["001"; "002"; "003"]]%byte in
  0 <= 0
  /\ (fragments = [] -> chunkStream 0 (ofList fragments) [] Js.Returned)
  /\ (fragments <> [] ->
      (exists frame g, next 0 (Start (ofList fragments)) = Yield frame g)
      /\ (forall fuel, collect 0 fuel (Start (ofList fragments)) = None)
      /\ (forall frames ending,
            ~ chunkStream 0 (ofList fragments) frames ending)).
Proof.
  intros fragments. split; [lia|].
  apply (chunkStream_nonpositive fragments 0). lia.
Defined.

(** C7, as the specification words it, fails: with frame size 0 the
    first call of [next] on a one-byte input yields an empty frame
    instead of throwing, and so does the second; with frame size -1 on
    three bytes the first frame is the input cut one byte short. *)
Lemma chunkStream_nonpositive_counterexample :
  next 0 (Start (ofList [["001"]%byte]))
    = Yield [] (AfterYield ["001"%byte] Eof)
  /\ next 0 (AfterYield ["001"%byte] Eof)
    = Yield [] (AfterYield ["001"%byte] Eof)
  /\ (forall v, next 0 (Start (ofList [["001"]%byte])) <> Throw v)
  /\ next (-1) (Start (ofList [["001"; "002"; "003"]%byte]))
    = Yield ["001"; "002"]%byte (AfterYield ["001"; "002"; "003"]%byte Eof).
Proof.
  repeat split; try reflexivity. intros v H. discriminate H.
Qed.

End ChunkerSpec.

(* ===================================================================== *)
(** * The Frame Sender: labels and terminal flags *)
(* ===================================================================== *)

Module SenderSpec.

Import Chunker BufFacts ChunkerFacts Grpc SenderModel.

Section WithFilename.

Variable fname : string.

Lemma sendLoop_S (fuel : nat) (g : Gen) prevChunk isFirst written :
  sendLoop (S fuel) fname g prevChunk isFirst written =
  match next CHUNK_SIZE g with
  | Yield chunk g' =>
      let '(prevChunk', isFirst', written') :=
        onChunk fname chunk prevChunk isFirst written in
      sendLoop fuel fname g' prevChunk' isFirst' written'
  | Done => Some (flush fname prevChunk isFirst written, Js.Returned)
  | Throw v => Some (written, Js.Raised v)
  end.
Proof. reflexivity. Qed.

(** [sendStreamChunks] is the loop [feed] over what [chunkStream]
    yields. *)
Lemma sendLoop_collect (fuel : nat) :
  forall g chunks ending prevChunk isFirst written,
    collect CHUNK_SIZE fuel g = Some (chunks, ending) ->
    sendLoop fuel fname g prevChunk isFirst written
    = Some (finish fname ending (feed fname chunks prevChunk isFirst written), ending).
Proof.
  induction fuel as [| fuel IH]; intros g chunks ending p b w H;
    [discriminate|].
  rewrite collect_S in H. rewrite sendLoop_S.
  destruct (next CHUNK_SIZE g) as [c g' | | v].
  - destruct (collect CHUNK_SIZE fuel g') as [[cs e]|] eqn:E; [|discriminate].
    inversion H; subst. cbn [feed].
    destruct (onChunk fname c p b w) as [[p' b'] w'].
    now apply IH.
  - inversion H; subst. reflexivity.
  - inversion H; subst. reflexivity.
Qed.

Lemma sendLoop_mono (n : nat) :
  forall g prevChunk isFirst written r,
    sendLoop n fname g prevChunk isFirst written = Some r ->
    forall m, (n <= m)%nat ->
    sendLoop m fname g prevChunk isFirst written = Some r.
Proof.
  induction n as [| n IH]; intros g p b w r H m Hm; [discriminate|].
  destruct m as [| m]; [lia|].
  rewrite sendLoop_S in *.
  destruct (next CHUNK_SIZE g) as [c g' | | v]; try assumption.
  destruct (onChunk fname c p b w) as [[p' b'] w'].
  apply IH with (m := m) in H; [assumption | lia].
Qed.

Lemma sendStreamChunks_functional (stream : Source) w1 e1 w2 e2 :
  sendStreamChunks stream fname w1 e1 ->
  sendStreamChunks stream fname w2 e2 ->
  w1 = w2 /\ e1 = e2.
Proof.
  intros [n1 H1] [n2 H2].
  apply sendLoop_mono with (m := Nat.max n1 n2) in H1; [|lia].
  apply sendLoop_mono with (m := Nat.max n1 n2) in H2; [|lia].
  rewrite H1 in H2. now inversion H2.
Qed.

(** The loop with a chunk held back. *)
Lemma feed_held (chunks : list Buffer) :
  forall prev isFirst written,
    finish fname Js.Returned (feed fname chunks (Some prev) isFirst written)
    = written
        ++ mkRequest prev (if isFirst then fname else "") (isNil chunks)
        :: unlabelled chunks.
Proof.
  induction chunks as [| c cs IH]; intros prev isFirst written.
  - reflexivity.
  - cbn [feed onChunk]. rewrite IH. rewrite <- app_assoc. reflexivity.
Qed.

Lemma feed_labelled (chunks : list Buffer) :
  finish fname Js.Returned (feed fname chunks None true []) = labelled fname chunks.
Proof.
  destruct chunks as [| c cs]; [reflexivity|].
  cbn [feed onChunk]. now rewrite feed_held.
Qed.

Lemma unlabelled_chunks (chunks : list Buffer) :
  map chunk (unlabelled chunks) = chunks.
Proof. induction chunks as [| c cs IH]; cbn; congruence. Qed.

Lemma unlabelled_no_label (chunks : list Buffer) :
  Forall (fun r => filename r = ""%string) (unlabelled chunks).
Proof. induction chunks; cbn; constructor; auto. Qed.

Lemma unlabelled_last (c : Buffer) (cs : list Buffer) :
  exists init final,
    unlabelled (c :: cs) = init ++ [final]
    /\ isLast final = true
    /\ Forall (fun r => isLast r = false) init.
Proof.
  revert c. induction cs as [| d cs IH]; intros c.
  - exists [], (mkRequest c "" true). repeat split. constructor.
  - destruct (IH d) as (init & final & E & Hfinal & Hall).
    exists (mkRequest c "" false :: init), final. repeat split.
    + change (unlabelled (c :: d :: cs))
        with (mkRequest c "" false :: unlabelled (d :: cs)).
      rewrite E. reflexivity.
    + assumption.
    + constructor; [reflexivity | assumption].
Qed.

Lemma labelled_last (c : Buffer) (cs : list Buffer) :
  exists init final,
    labelled fname (c :: cs) = init ++ [final]
    /\ isLast final = true
    /\ Forall (fun r => isLast r = false) init.
Proof.
  destruct cs as [| d cs].
  - exists [], (mkRequest c fname true). repeat split. constructor.
  - destruct (unlabelled_last d cs) as (init & final & E & Hfinal & Hall).
    exists (mkRequest c fname false :: init), final.
    cbn [labelled isNil]. rewrite E. repeat split; try assumption.
    constructor; [reflexivity | assumption].
Qed.

End WithFilename.

Lemma count_none {A} (p : A -> bool) (l : list A) :
  Forall (fun x => p x = false) l -> filter p l = [].
Proof.
  induction 1 as [| x l Hx _ IH]; [reflexivity|]. cbn. now rewrite Hx.
Qed.

Lemma hasLabel_unlabelled (chunks : list Buffer) :
  filter hasLabel (unlabelled chunks) = [].
Proof.
  apply count_none.
  eapply Forall_impl; [|apply unlabelled_no_label].
  intros r Hr. unfold hasLabel. now rewrite Hr.
Qed.

(** What [sendStreamChunks] does on a stream whose chunks are known. *)
Lemma sendStreamChunks_labelled (stream : Source) (fname : string)
      (chunks : list Buffer) :
  chunkStream CHUNK_SIZE stream chunks Js.Returned ->
  sendStreamChunks stream fname (labelled fname chunks) Js.Returned.
Proof.
  intros [fuel H]. exists fuel. unfold sendStreamChunks.
  rewrite (sendLoop_collect fname fuel _ _ _ None true [] H).
  now rewrite feed_labelled.
Qed.

(** C3. For every file whose byte source makes [chunkStream] yield at
    least one chunk, and every non-empty filename, [sendStreamChunks]
    writes one frame per chunk, in order; exactly one of them carries a
    non-empty filename, the first, and exactly one carries [isLast = true],
    the last; for a single chunk both fall on the one frame written. *)
Theorem sendStreamChunks_labelling (fragments : list Buffer) (fname : string)
        (chunks : list Buffer) :
  fname <> ""%string ->
  chunkStream CHUNK_SIZE (ofList fragments) chunks Js.Returned ->
  chunks <> [] ->
  (exists written,
      sendStreamChunks (ofList fragments) fname written Js.Returned)
  /\ (forall written ending,
        sendStreamChunks (ofList fragments) fname written ending ->
        ending = Js.Returned
        /\ map chunk written = chunks
        /\ (exists first rest,
               written = first :: rest
               /\ filename first = fname
               /\ Forall (fun r => filename r = ""%string) rest)
        /\ (exists init final,
               written = init ++ [final]
               /\ isLast final = true
               /\ Forall (fun r => isLast r = false) init)
        /\ List.length (filter hasLabel written) = 1%nat
        /\ List.length (filter isLast written) = 1%nat
        /\ (forall c, chunks = [c] -> written = [mkRequest c fname true])).
Proof.
  intros Hname Hrun Hchunks.
  pose proof (sendStreamChunks_labelled _ fname _ Hrun) as Hsend.
  split; [eexists; exact Hsend|].
  intros written ending H.
  destruct (sendStreamChunks_functional _ _ _ _ _ _ H Hsend) as [-> ->].
  destruct chunks as [| c cs]; [congruence|].
  split; [reflexivity|].
  split; [cbn; now rewrite unlabelled_chunks|].
  split.
  { exists (mkRequest c fname (isNil cs)), (unlabelled cs).
    repeat split. apply unlabelled_no_label. }
  split; [apply labelled_last|].
  split.
  { cbn [labelled filter]. unfold hasLabel at 1. cbn [filename].
    apply String.eqb_neq in Hname. rewrite Hname. cbn [negb].
    now rewrite hasLabel_unlabelled. }
  split.
  { destruct (labelled_last fname c cs) as (init & final & -> & Hfinal & Hinit).
    rewrite filter_app, (count_none isLast init Hinit). cbn.
    now rewrite Hfinal. }
  intros c0 E. inversion E; subst. reflexivity.
Qed.

Lemma sendStreamChunks_labelling_witness :
  let fragments := [["001"; "002"]%byte] in
  let fname := "a.txt"%string in
  let chunks := [["001"; "002"]%byte] in
  fname <> ""%string
  /\ chunkStream CHUNK_SIZE (ofList fragments) chunks Js.Returned
  /\ chunks <> []
  /\ (exists written,
         sendStreamChunks (ofList fragments) fname written Js.Returned)
  /\ (forall written ending,
        sendStreamChunks (ofList fragments) fname written ending ->
        ending = Js.Returned
        /\ map chunk written = chunks
        /\ (exists first rest,
               written = first :: rest
               /\ filename first = fname
               /\ Forall (fun r => filename r = ""%string) rest)
        /\ (exists init final,
               written = init ++ [final]
               /\ isLast final = true
               /\ Forall (fun r => isLast r = false) init)
        /\ List.length (filter hasLabel written) = 1%nat
        /\ List.length (filter isLast written) = 1%nat
        /\ (forall c, chunks = [c] -> written = [mkRequest c fname true])).
Proof.
  intros fragments fname chunks.
  assert (Hname : fname <> ""%string) by discriminate.
  assert (Hrun : chunkStream CHUNK_SIZE (ofList fragments) chunks Js.Returned)
    by (exists 2%nat; reflexivity).
  assert (Hchunks : chunks <> []) by discriminate.
  repeat (split; [assumption|]).
  exact (sendStreamChunks_labelling fragments fname chunks Hname Hrun Hchunks).
Defined.

(** The test of the unit suite: 150 KB are sent as three frames, the
    first with the filename, the last with [isLast]. *)
Example sendStreamChunks_150KB :
  let file := repeat "120"%byte (Z.to_nat (150 * 1024)) in
  option_map
    (fun r => map (fun q => (len (chunk q), filename q, isLast q)) (fst r))
    (sendLoop 10 "large.bin" (Start (readableFrom file)) None true [])
  = Some [(65536, "large.bin"%string, false);
          (65536, ""%string, false);
          (22528, ""%string, true)].
Proof. vm_compute. reflexivity. Qed.

(** C9. For every file whose byte source yields zero bytes,
    [sendStreamChunks] writes nothing at all, not even a terminal frame,
    and ends normally. *)
Theorem sendStreamChunks_empty_file (fragments : list Buffer) (fname : string) :
  Buf.concat fragments = [] ->
  sendStreamChunks (ofList fragments) fname [] Js.Returned
  /\ (forall written ending,
        sendStreamChunks (ofList fragments) fname written ending ->
        written = [] /\ ending = Js.Returned).
Proof.
  intros Hempty.
  assert (HF : 0 < CHUNK_SIZE) by reflexivity.
  destruct (chunkStream_total CHUNK_SIZE HF fragments)
    as (chunks & Hrun & Hcat & Hws).
  rewrite Hempty in Hcat.
  assert (chunks = []) as ->.
  { destruct chunks as [| b chunks]; [reflexivity|]. exfalso.
    assert (Hb : 0 < len b) by (destruct chunks; cbn in Hws; lia).
    change (Buf.concat (b :: chunks)) with (b ++ Buf.concat chunks) in Hcat.
    apply app_eq_nil in Hcat. destruct Hcat as [-> _]. cbn in Hb. lia. }
  pose proof (sendStreamChunks_labelled _ fname _ Hrun) as Hsend.
  split; [exact Hsend|].
  intros written ending H.
  exact (sendStreamChunks_functional _ _ _ _ _ _ H Hsend).
Qed.

Lemma sendStreamChunks_empty_file_witness :
  let fragments := [[]; []] : list Buffer in
  Buf.concat fragments = []
  /\ sendStreamChunks (ofList fragments) "empty.txt" [] Js.Returned
  /\ (forall written ending,
        sendStreamChunks (ofList fragments) "empty.txt" written ending ->
        written = [] /\ ending = Js.Returned).
Proof.
  intros fragments. split; [reflexivity|].
  apply (sendStreamChunks_empty_file fragments "empty.txt"). reflexivity.
Defined.

(** The file entries of [scanMultiple] are buffers: an empty one is sent
    as no frame. *)
Example sendStreamChunks_empty_buffer :
  sendLoop 1 "empty.txt" (Start (readableFrom [])) None true []
  = Some ([], Js.Returned).
Proof. reflexivity. Qed.

End SenderSpec.

(* ===================================================================== *)
(** * The multi-file driver: delivery order and failures *)
(* ===================================================================== *)

Module DriverFacts.

Import Grpc DriverModel.

(** Projections of explicit records, and nothing else. *)
Ltac proj :=
  cbn [state yielded phase delivered call results resolveNext done error
       withState withPhase withCall] in *.

(** ** What the handlers leave alone *)

Lemma notify_state (d : Driver) : state (notify d) = state d.
Proof. unfold notify. destruct (resolveNext _), (phase d); reflexivity. Qed.

Lemma notify_yielded (d : Driver) : yielded (notify d) = yielded d.
Proof. unfold notify. destruct (resolveNext _), (phase d); reflexivity. Qed.

Lemma notify_delivered (d : Driver) : delivered (notify d) = delivered d.
Proof. unfold notify. destruct (resolveNext _), (phase d); reflexivity. Qed.

Lemma notify_ended (d : Driver) (how : Js.Ending) :
  phase d = Ended how -> notify d = d.
Proof. unfold notify. intros ->. now destruct (resolveNext _). Qed.

Lemma notify_finished (d : Driver) : finished (notify d) = finished d.
Proof.
  unfold notify, finished. destruct (resolveNext _); [|reflexivity].
  destruct (phase d) eqn:E; cbn; rewrite ?E; reflexivity.
Qed.

(** A waiting generator whose resolver is stored is woken. *)
Lemma notify_awaiting (d : Driver) :
  resolveNext (state d) = true -> phase (notify d) <> Awaiting.
Proof.
  unfold notify. intros ->. destruct (phase d) eqn:E; cbn; congruence.
Qed.

Lemma notify_not_awaiting (d : Driver) :
  phase d <> Awaiting -> phase (notify d) <> Awaiting.
Proof.
  unfold notify. destruct (resolveNext _); [|auto].
  destruct (phase d) eqn:E; cbn; congruence.
Qed.

(** The readings of a trace, event by event. *)
Lemma emitted_app (t1 t2 : list Event) :
  emitted (t1 ++ t2) = emitted t1 ++ emitted t2.
Proof.
  induction t1 as [| ev t1 IH]; [reflexivity|].
  cbn. destruct (outcomeOf ev); cbn; now rewrite IH.
Qed.

Lemma failures_app (t1 t2 : list Event) :
  failures (t1 ++ t2) = failures t1 ++ failures t2.
Proof.
  induction t1 as [| ev t1 IH]; [reflexivity|].
  cbn. destruct (failureOf ev); cbn; now rewrite IH.
Qed.

Lemma lastFailure_snoc (t : list Event) (ev : Event) :
  lastFailure (t ++ [ev])
  = match failureOf ev with
    | Some e => Some e
    | None => lastFailure t
    end.
Proof.
  unfold lastFailure. rewrite failures_app. cbn [failures].
  destruct (failureOf ev) as [e |].
  - rewrite map_app. cbn. apply last_last.
  - now rewrite app_nil_r.
Qed.

Lemma run_snoc options (t : list Event) (ev : Event) :
  run options (t ++ [ev]) = step (run options t) ev.
Proof. unfold run. now rewrite fold_left_app. Qed.

Lemma run_app options (t1 t2 : list Event) :
  run options (t1 ++ t2) = fold_left step t2 (run options t1).
Proof. unfold run. now rewrite fold_left_app. Qed.

(** ** One step *)

(** The buffer only grows, by the outcome of the event. *)
Lemma step_results (d : Driver) (ev : Event) :
  results (state (step d ev))
  = results (state d)
      ++ match outcomeOf ev with Some r => [r] | None => [] end.
Proof.
  destruct ev; cbn [step outcomeOf];
    unfold onData, onError, onEnd, onSubmitted, onSubmitFailed;
    rewrite ?notify_state; cbn; rewrite ?app_nil_r; try reflexivity.
  - destruct (phase d); try reflexivity.
    unfold pump. destruct (nth_error _ _); [reflexivity|].
    destruct (done _ && _); [destruct (error _)|]; reflexivity.
  - destruct (phase d); try reflexivity.
    unfold pump. destruct (nth_error _ _); [reflexivity|].
    destruct (done _ && _); [destruct (error _)|]; reflexivity.
Qed.

(** The slot [state.error] holds the failure signalled last. *)
Lemma step_error (d : Driver) (ev : Event) :
  error (state (step d ev))
  = match failureOf ev with
    | Some e => Some e
    | None => error (state d)
    end.
Proof.
  destruct ev; cbn [step failureOf];
    unfold onData, onError, onEnd, onSubmitted, onSubmitFailed;
    rewrite ?notify_state; cbn; try reflexivity.
  - destruct (phase d); try reflexivity.
    unfold pump. destruct (nth_error _ _); [reflexivity|].
    destruct (done _ && _); [destruct (error (state d)) eqn:E|]; cbn;
      rewrite ?E; reflexivity.
  - destruct (phase d); try reflexivity.
    unfold pump. destruct (nth_error _ _); [reflexivity|].
    destruct (done _ && _); [destruct (error (state d)) eqn:E|]; cbn;
      rewrite ?E; reflexivity.
Qed.

(** Once the generator has ended nothing is delivered any more. *)
Lemma step_after_end (d : Driver) (ev : Event) (how : Js.Ending) :
  phase d = Ended how ->
  phase (step d ev) = Ended how /\ delivered (step d ev) = delivered d.
Proof.
  intros H. destruct ev; cbn [step];
    unfold onData, onError, onEnd, onSubmitted, onSubmitFailed;
    try (rewrite notify_ended with (how := how) by exact H);
    try (rewrite H); cbn; auto.
Qed.

Lemma steps_after_end (t : list Event) :
  forall d how,
    phase d = Ended how ->
    phase (fold_left step t d) = Ended how
    /\ delivered (fold_left step t d) = delivered d.
Proof.
  induction t as [| ev t IH]; intros d how H; [auto|].
  cbn [fold_left]. destruct (step_after_end d ev how H) as [Hp Hd].
  destruct (IH _ _ Hp) as [Hp' Hd']. split; congruence.
Qed.

(** ** The invariant of the consumer loop *)

Lemma firstn_snoc_nth {A} (l : list A) (n : nat) (x : A) :
  nth_error l n = Some x -> firstn (S n) l = firstn n l ++ [x].
Proof.
  revert n. induction l as [| a l IH]; intros [| n] H; cbn in *;
    try discriminate.
  - now inversion H.
  - now rewrite (IH n H).
Qed.

Lemma pump_inv (d : Driver) : Inv d -> Inv (pump d).
Proof.
  intros [Hd Hy Ha]. unfold pump.
  destruct (nth_error (results (state d)) (yielded d)) as [r |] eqn:E.
  - constructor; proj.
    + rewrite (firstn_snoc_nth _ _ _ E). now rewrite Hd.
    + assert (yielded d < List.length (results (state d)))%nat
        by (apply nth_error_Some; congruence).
      lia.
    + discriminate.
  - apply nth_error_None in E.
    destruct (done (state d)) eqn:Hdone; cbn [andb].
    + apply Nat.leb_le in E. rewrite E.
      destruct (error (state d)); constructor; proj; auto; discriminate.
    + constructor; proj; auto.
Qed.

Lemma notified_inv (d : Driver) (s : State) :
  Inv d ->
  (List.length (results (state d)) <= List.length (results s))%nat ->
  firstn (yielded d) (results s) = firstn (yielded d) (results (state d)) ->
  resolveNext s = resolveNext (state d) ->
  Inv (notify (withState (fun _ => s) d)).
Proof.
  intros [Hd Hy Ha] Hlen Hfirst Hres.
  constructor; rewrite ?notify_state, ?notify_yielded, ?notify_delivered; proj.
  - now rewrite Hfirst.
  - lia.
  - intros Hp. exfalso. revert Hp.
    destruct (phase d) eqn:E.
    + apply notify_not_awaiting. cbn. congruence.
    + apply notify_awaiting. cbn. rewrite Hres. now apply Ha.
    + apply notify_not_awaiting. cbn. congruence.
    + apply notify_not_awaiting. cbn. congruence.
Qed.

Lemma step_inv (d : Driver) (ev : Event) : Inv d -> Inv (step d ev).
Proof.
  intros H. pose proof H as [Hd Hy Ha].
  destruct ev; cbn [step].
  - apply (notified_inv d (mkState _ _ _ _)); proj; auto.
    + rewrite length_app. lia.
    + rewrite firstn_app.
      replace (yielded d - List.length (results (state d)))%nat with 0%nat
        by lia.
      cbn [firstn]. apply app_nil_r.
  - apply (notified_inv d (mkState _ _ _ _)); proj; auto.
  - apply (notified_inv d (mkState _ _ _ _)); proj; auto.
  - constructor; proj; auto.
  - unfold onSubmitFailed.
    destruct (notified_inv d
                (mkState (results (state d)) (resolveNext (state d)) true
                         (Some (asError err))) H) as [Hd' Hy' Ha'];
      proj; auto.
    constructor; rewrite ?notify_state, ?notify_yielded, ?notify_delivered in *;
      proj; auto.
    intros Hp. exfalso. revert Hp.
    destruct (phase d) eqn:E.
    + apply notify_not_awaiting. cbn. congruence.
    + apply notify_awaiting. cbn. now apply Ha.
    + apply notify_not_awaiting. cbn. congruence.
    + apply notify_not_awaiting. cbn. congruence.
  - destruct (phase d); auto using pump_inv.
  - destruct (phase d); auto using pump_inv.
Qed.

Lemma opened_inv options : Inv (opened options).
Proof. unfold opened. apply pump_inv. constructor; cbn; auto. discriminate. Qed.

Lemma steps_inv (t : list Event) : forall d, Inv d -> Inv (fold_left step t d).
Proof.
  induction t as [| ev t IH]; intros d H; [exact H|].
  cbn [fold_left]. apply IH. now apply step_inv.
Qed.

Lemma run_inv options (t : list Event) : Inv (run options t).
Proof. apply steps_inv, opened_inv. Qed.

(** The buffer is the emitted outcomes, the slot the last failure. *)
Lemma run_results options (t : list Event) :
  results (state (run options t)) = emitted t.
Proof.
  induction t as [| ev t IH] using rev_ind; [reflexivity|].
  rewrite run_snoc, step_results, IH, emitted_app. cbn.
  destruct (outcomeOf ev); reflexivity.
Qed.

Lemma run_error options (t : list Event) :
  error (state (run options t)) = lastFailure t.
Proof.
  induction t as [| ev t IH] using rev_ind; [reflexivity|].
  rewrite run_snoc, step_error, IH, lastFailure_snoc. reflexivity.
Qed.

(** ** The step that ends the generator *)

(** The generator ends only in [pump], on a consumer event, with every
    buffered outcome delivered and with the failure in the slot, if any. *)
Lemma step_ends (d : Driver) (ev : Event) :
  Inv d ->
  finished d = false ->
  finished (step d ev) = true ->
  outcomeOf ev = None
  /\ failureOf ev = None
  /\ state (step d ev) = state d
  /\ delivered (step d ev) = results (state d)
  /\ phase (step d ev)
     = Ended (match error (state d) with
              | Some e => Js.Raised (Js.VError e)
              | None => Js.Returned
              end).
Proof.
  intros [Hd Hy Ha] Hf Hf'.
  assert (Hpump : finished (pump d) = true ->
                  state (pump d) = state d
                  /\ delivered (pump d) = results (state d)
                  /\ phase (pump d)
                     = Ended (match error (state d) with
                              | Some e => Js.Raised (Js.VError e)
                              | None => Js.Returned
                              end)).
  { unfold pump.
    destruct (nth_error (results (state d)) (yielded d)) eqn:E;
      [discriminate|].
    apply nth_error_None in E.
    destruct (done (state d) && _); [|discriminate].
    intros _.
    assert (delivered d = results (state d)) as Hall
        by (rewrite Hd; now apply firstn_all2).
    destruct (error (state d)); cbn; auto. }
  destruct ev; cbn [step] in *;
    unfold onData, onError, onEnd, onSubmitted, onSubmitFailed in Hf';
    rewrite ?notify_finished in Hf'; unfold finished in *; cbn in Hf';
    try congruence.
  - destruct (phase d) eqn:E; try (rewrite E in Hf'; discriminate).
    repeat split; now apply Hpump.
  - destruct (phase d) eqn:E; try (rewrite E in Hf'; discriminate).
    repeat split; now apply Hpump.
Qed.

(** From a generator that has not ended: if it has ended after further
    events, everything buffered before them was delivered, and what was
    thrown, if anything, was then in the slot. *)
Lemma steps_end (t : list Event) :
  forall d,
    Inv d ->
    finished d = false ->
    finished (fold_left step t d) = true ->
    exists t1 ev t2,
      t = t1 ++ ev :: t2
      /\ finished (fold_left step t1 d) = false
      /\ finished (fold_left step (t1 ++ [ev]) d) = true
      /\ delivered (fold_left step t d)
         = results (state d) ++ emitted t1
      /\ phase (fold_left step t d)
         = Ended (match error (state (fold_left step t1 d)) with
                  | Some e => Js.Raised (Js.VError e)
                  | None => Js.Returned
                  end).
Proof.
  induction t as [| ev t IH]; intros d HI Hf Hf'.
  - cbn in Hf'. congruence.
  - cbn [fold_left] in Hf'.
    destruct (finished (step d ev)) eqn:Hs.
    + destruct (step_ends d ev HI Hf Hs) as (_ & _ & _ & Hdel & Hph).
      destruct (steps_after_end t _ _ Hph) as [Hph' Hdel'].
      exists [], ev, t. cbn [fold_left app emitted].
      rewrite app_nil_r. repeat split; try assumption; congruence.
    + destruct (IH (step d ev) (step_inv d ev HI) Hs Hf')
        as (t1 & ev' & t2 & -> & H1 & H2 & Hdel & Hph).
      exists (ev :: t1), ev', t2. cbn [fold_left app].
      repeat split; try assumption.
      rewrite Hdel, step_results, <- app_assoc. f_equal.
      cbn [emitted]. destruct (outcomeOf ev); reflexivity.
Qed.

(** The generator ends only after the exchange is over. *)
Lemma step_ends_done (d : Driver) (ev : Event) :
  finished d = false ->
  finished (step d ev) = true ->
  done (state d) = true.
Proof.
  intros Hf Hf'.
  assert (Hpump : finished (pump d) = true -> done (state d) = true).
  { unfold pump, finished.
    destruct (nth_error (results (state d)) (yielded d)); [discriminate|].
    destruct (done (state d)); [reflexivity | discriminate]. }
  destruct ev; cbn [step] in *;
    unfold onData, onError, onEnd, onSubmitted, onSubmitFailed in Hf';
    rewrite ?notify_finished in Hf'; unfold finished in Hf, Hf';
    cbn in Hf'; try congruence.
  - destruct (phase d) eqn:E; try (rewrite E in Hf'; discriminate).
    now apply Hpump.
  - destruct (phase d) eqn:E; try (rewrite E in Hf'; discriminate).
    now apply Hpump.
Qed.

(** [state.done] is set by the terminal events and by nothing else. *)
Lemma step_done (d : Driver) (ev : Event) :
  done (state (step d ev)) = done (state d) || terminal ev.
Proof.
  destruct ev; cbn [step terminal];
    unfold onData, onError, onEnd, onSubmitted, onSubmitFailed;
    rewrite ?notify_state; cbn; rewrite ?orb_true_r, ?orb_false_r;
    try reflexivity.
  - destruct (phase d); try reflexivity.
    unfold pump. destruct (nth_error _ _); [reflexivity|].
    destruct (done (state d) && _); [destruct (error (state d))|];
      reflexivity.
  - destruct (phase d); try reflexivity.
    unfold pump. destruct (nth_error _ _); [reflexivity|].
    destruct (done (state d) && _); [destruct (error (state d))|];
      reflexivity.
Qed.

Lemma steps_done (t : list Event) :
  forall d, done (state (fold_left step t d))
            = done (state d) || existsb terminal t.
Proof.
  induction t as [| ev t IH]; intros d; cbn [fold_left existsb].
  - now rewrite orb_false_r.
  - now rewrite IH, step_done, orb_assoc.
Qed.

(** In a quiet trace nothing is emitted after a terminal event. *)
Lemma quiet_after_terminal (t1 t2 : list Event) :
  quiet (t1 ++ t2) = true ->
  existsb terminal t1 = true ->
  emitted t2 = [].
Proof.
  induction t1 as [| ev t1 IH]; cbn [app quiet existsb]; [discriminate|].
  destruct (terminal ev); cbn [orb].
  - intros Hq _. rewrite forallb_app in Hq.
    apply andb_prop in Hq. destruct Hq as [_ Hq].
    clear IH. induction t2 as [| e t2 IH2]; [reflexivity|].
    cbn in Hq. apply andb_prop in Hq. destruct Hq as [He Hq].
    destruct e; try discriminate; cbn; auto.
  - exact IH.
Qed.

(** ** Draining *)

Lemma pump_ended (d : Driver) (how : Js.Ending) (n : nat) :
  phase d = Ended how -> fold_left step (repeat Next n) d = d.
Proof.
  intros H. induction n as [| n IH]; [reflexivity|].
  cbn [repeat fold_left step]. now rewrite H.
Qed.

(** Once the exchange is over, a consumer that keeps asking receives what
    is left in the buffer and then the end: the failure in the slot if
    there is one, the normal end otherwise. *)
Lemma pump_drains (m : nat) :
  forall d,
    Inv d ->
    done (state d) = true ->
    (List.length (results (state d)) - yielded d = m)%nat ->
    let d' := fold_left step (repeat Next m) (pump d) in
    delivered d' = results (state d)
    /\ state d' = state d
    /\ phase d' = Ended (match error (state d) with
                         | Some e => Js.Raised (Js.VError e)
                         | None => Js.Returned
                         end).
Proof.
  induction m as [| m IH]; intros d HI Hdone Hm; pose proof HI as [Hd Hy Ha].
  - cbn [repeat fold_left]. unfold pump.
    destruct (nth_error (results (state d)) (yielded d)) eqn:E.
    + assert (yielded d < List.length (results (state d)))%nat
        by (apply nth_error_Some; congruence). lia.
    + apply nth_error_None in E. rewrite Hdone. cbn [andb].
      apply Nat.leb_le in E. rewrite E.
      assert (delivered d = results (state d)) as Hall.
      { rewrite Hd. apply firstn_all2. now apply Nat.leb_le. }
      destruct (error (state d)); cbn; auto.
  - cbn [repeat fold_left].
    assert (Hp : phase (pump d) = AtYield
                 /\ state (pump d) = state d
                 /\ yielded (pump d) = S (yielded d)).
    { unfold pump.
      destruct (nth_error (results (state d)) (yielded d)) eqn:E;
        [cbn; auto|].
      apply nth_error_None in E. lia. }
    destruct Hp as (Hph & Hst & Hyd).
    cbn [step]. rewrite Hph.
    destruct (IH (pump d) (pump_inv d HI)) as (H1 & H2 & H3).
    + now rewrite Hst.
    + rewrite Hst, Hyd. lia.
    + rewrite Hst in *. repeat split; congruence.
Qed.

Lemma drains (d : Driver) :
  Inv d ->
  finished d = false ->
  done (state d) = true ->
  exists n,
    let d' := fold_left step (pulls n) d in
    delivered d' = results (state d)
    /\ state d' = state d
    /\ phase d' = Ended (match error (state d) with
                         | Some e => Js.Raised (Js.VError e)
                         | None => Js.Returned
                         end).
Proof.
  intros HI Hf Hdone. pose proof HI as [Hd Hy Ha].
  set (m := (List.length (results (state d)) - yielded d)%nat).
  unfold pulls, finished in *. destruct (phase d) eqn:E; try discriminate.
  - exists (S m). cbn [fold_left step repeat]. rewrite E.
    cbn [fold_left step]. rewrite E. now apply pump_drains.
  - destruct (Ha eq_refl) as [_ Hnd]. congruence.
  - exists m. cbn [fold_left step]. rewrite E. now apply pump_drains.
Qed.

Lemma opened_done options : done (state (opened options)) = false.
Proof. reflexivity. Qed.

(** While the generator waits, it has delivered everything buffered. *)
Lemma step_waiting (d : Driver) (ev : Event) :
  Inv d ->
  phase (step d ev) = Awaiting ->
  (phase d = Awaiting ->
   yielded d = List.length (results (state d))) ->
  yielded (step d ev) = List.length (results (state (step d ev))).
Proof.
  intros HI Hph Hprev. pose proof HI as [Hd Hy Ha].
  assert (Hnotify : forall d', phase d' = phase d ->
                               resolveNext (state d') = resolveNext (state d) ->
                               phase (notify d') <> Awaiting).
  { intros d' Hp Hr. destruct (phase d) eqn:E.
    - apply notify_not_awaiting. congruence.
    - apply notify_awaiting. rewrite Hr. now apply Ha.
    - apply notify_not_awaiting. congruence.
    - apply notify_not_awaiting. congruence. }
  assert (Hpump : phase (pump d) = Awaiting ->
                  yielded (pump d) = List.length (results (state (pump d)))).
  { unfold pump.
    destruct (nth_error (results (state d)) (yielded d)) eqn:E;
      [discriminate|].
    apply nth_error_None in E.
    destruct (done (state d) && _);
      [destruct (error (state d)); discriminate|].
    intros _. cbn. lia. }
  destruct ev; cbn [step] in *;
    unfold onData, onError, onEnd, onSubmitted, onSubmitFailed in *.
  - exfalso. revert Hph. now apply Hnotify.
  - exfalso. revert Hph. now apply Hnotify.
  - exfalso. revert Hph. now apply Hnotify.
  - cbn in *. now apply Hprev.
  - exfalso. revert Hph. now apply Hnotify.
  - destruct (phase d) eqn:E; try (rewrite E in Hph; discriminate);
      auto.
  - destruct (phase d) eqn:E; try (rewrite E in Hph; discriminate);
      auto.
Qed.

Lemma run_waiting options (trace : list Event) :
  phase (run options trace) = Awaiting ->
  yielded (run options trace)
  = List.length (results (state (run options trace))).
Proof.
  induction trace as [| ev trace IH] using rev_ind; [reflexivity|].
  rewrite run_snoc. intros H.
  apply step_waiting; [apply run_inv | exact H | exact IH].
Qed.

(** ** Delivery *)

(** A consumer that keeps asking receives everything in the buffer,
    whether the exchange is over or not. *)
Lemma pump_delivers (m : nat) :
  forall d,
    Inv d ->
    (List.length (results (state d)) - yielded d = m)%nat ->
    delivered (fold_left step (repeat Next m) (pump d)) = results (state d).
Proof.
  induction m as [| m IH]; intros d HI Hm; pose proof HI as [Hd Hy Ha].
  - cbn [repeat fold_left]. unfold pump.
    destruct (nth_error (results (state d)) (yielded d)) eqn:E.
    + assert (yielded d < List.length (results (state d)))%nat
        by (apply nth_error_Some; congruence). lia.
    + apply nth_error_None in E.
      assert (delivered d = results (state d)) as Hall.
      { rewrite Hd. now apply firstn_all2. }
      destruct (done (state d) && _);
        [destruct (error (state d))|]; exact Hall.
  - cbn [repeat fold_left].
    assert (Hp : phase (pump d) = AtYield
                 /\ state (pump d) = state d
                 /\ yielded (pump d) = S (yielded d)).
    { unfold pump.
      destruct (nth_error (results (state d)) (yielded d)) eqn:E;
        [cbn; auto|].
      apply nth_error_None in E. lia. }
    destruct Hp as (Hph & Hst & Hyd).
    cbn [step]. rewrite Hph.
    rewrite (IH (pump d) (pump_inv d HI)); [now rewrite Hst|].
    rewrite Hst, Hyd. lia.
Qed.

Lemma delivers (d : Driver) :
  Inv d ->
  (phase d = Awaiting -> yielded d = List.length (results (state d))) ->
  finished d = false ->
  exists n, delivered (fold_left step (pulls n) d) = results (state d).
Proof.
  intros HI Hw Hf. pose proof HI as [Hd Hy Ha].
  set (m := (List.length (results (state d)) - yielded d)%nat).
  unfold pulls, finished in *. destruct (phase d) eqn:E; try discriminate.
  - exists (S m). cbn [fold_left step repeat]. rewrite E.
    cbn [fold_left step]. rewrite E. now apply pump_delivers.
  - exists 0%nat. cbn [fold_left step repeat]. rewrite E.
    rewrite Hd, (Hw eq_refl). apply firstn_all.
  - exists m. cbn [fold_left step]. rewrite E. now apply pump_delivers.
Qed.

(** The sequence does not end before the exchange is over. *)
Lemma finished_terminal options (trace : list Event) :
  finished (run options trace) = true -> existsb terminal trace = true.
Proof.
  intros Hf. unfold run in Hf.
  destruct (steps_end trace _ (opened_inv options) eq_refl Hf)
    as (t1 & ev & t2 & -> & Hf1 & Hf2 & _).
  rewrite fold_left_app in Hf2. cbn [fold_left] in Hf2.
  pose proof (step_ends_done _ ev Hf1 Hf2) as Hdone.
  rewrite steps_done, opened_done in Hdone. cbn [orb] in Hdone.
  now rewrite existsb_app, Hdone.
Qed.

End DriverFacts.

Module DriverSpec.

Import Grpc DriverModel DriverFacts.

(** A failure signal sets the slot and the end flag, and is not a
    result. *)
Lemma failure_step (d : Driver) (ev : Event) (e : Js.Error) :
  failureOf ev = Some e ->
  outcomeOf ev = None
  /\ done (state (step d ev)) = true
  /\ error (state (step d ev)) = Some e
  /\ delivered (step d ev) = delivered d
  /\ finished (step d ev) = finished d.
Proof.
  destruct ev; cbn [failureOf]; try discriminate; intros H; inversion H;
    cbn [step outcomeOf]; unfold onError, onSubmitFailed;
    rewrite notify_state, notify_delivered, notify_finished;
    repeat split.
Qed.

(** C8, as the code has it. In the multi-file driver the outcomes yielded
    to the consumer are the result events of the remote side, in the
    order of their emission, whatever the order of submission, up to the
    end of the sequence. In every execution: what has been delivered is
    the first [yielded] emitted outcomes; as long as the sequence has not
    ended, a consumer that keeps asking receives every outcome emitted so
    far; the sequence does not end before the exchange is over, and once
    it is over a consumer that keeps asking reaches the end with every
    emitted outcome delivered; at the step where the sequence ends, by
    return or by throw, what has been delivered is exactly all outcomes
    emitted so far, and nothing is delivered afterwards. So the outcomes
    yielded are the outcomes emitted in every execution in which the
    remote side emits nothing after the exchange is over and the
    consumer asks until the sequence ends. *)
Theorem scanMultiple_delivery_order (options : option Types.RequestOptions)
        (trace : list Event) :
  let d := run options trace in
  delivered d = firstn (yielded d) (emitted trace)
  /\ (finished d = false ->
      exists n, delivered (run options (trace ++ pulls n)) = emitted trace)
  /\ (existsb terminal trace = false -> finished d = false)
  /\ (existsb terminal trace = true ->
      finished d = false ->
      exists n,
        let d' := run options (trace ++ pulls n) in
        finished d' = true /\ delivered d' = emitted trace)
  /\ (forall ev,
        finished d = false ->
        finished (run options (trace ++ [ev])) = true ->
        delivered (run options (trace ++ [ev])) = emitted (trace ++ [ev])
        /\ (forall after,
              delivered (run options (trace ++ ev :: after))
              = emitted (trace ++ [ev])))
  /\ (quiet trace = true ->
      existsb terminal trace = true ->
      exists n,
        let d' := run options (trace ++ pulls n) in
        finished d' = true
        /\ delivered d' = emitted trace
        /\ emitted (trace ++ pulls n) = emitted trace).
Proof.
  cbv zeta. pose proof (run_inv options trace) as HI.
  assert (Hpulls : forall n, emitted (trace ++ pulls n) = emitted trace).
  { intros n. rewrite emitted_app. unfold pulls. cbn [emitted outcomeOf].
    induction n as [| n IH]; [apply app_nil_r | exact IH]. }
  assert (Hdrain : existsb terminal trace = true ->
                   finished (run options trace) = false ->
                   exists n,
                     finished (run options (trace ++ pulls n)) = true
                     /\ delivered (run options (trace ++ pulls n))
                        = emitted trace).
  { intros Hterm Hf.
    assert (Hdone : done (state (run options trace)) = true)
      by (unfold run; now rewrite steps_done, Hterm, orb_true_r).
    destruct (drains _ HI Hf Hdone) as (n & Hdel & _ & Hph).
    exists n. cbv zeta in *. rewrite run_app. split.
    - unfold finished. now rewrite Hph.
    - now rewrite Hdel, run_results. }
  assert (Hquiet : finished (run options trace) = true ->
                   quiet trace = true ->
                   delivered (run options trace) = emitted trace).
  { intros Hf Hq. unfold run in Hf.
    destruct (steps_end trace _ (opened_inv options) eq_refl Hf)
      as (t1 & ev & t2 & -> & Hf1 & Hf2 & Hdel & _).
    unfold run. rewrite Hdel. cbn [opened pump app].
    rewrite fold_left_app in Hf2. cbn [fold_left] in Hf2.
    pose proof (step_ends_done _ ev Hf1 Hf2) as Hdone.
    rewrite steps_done in Hdone. cbn in Hdone.
    rewrite emitted_app, (quiet_after_terminal t1 (ev :: t2) Hq Hdone).
    now rewrite app_nil_r. }
  split; [|split; [|split; [|split; [|split]]]].
  - rewrite <- (run_results options). apply HI.
  - intros Hf.
    destruct (delivers _ HI (run_waiting options trace) Hf) as [n Hn].
    exists n. now rewrite run_app, Hn, run_results.
  - intros Hterm.
    destruct (finished (run options trace)) eqn:Hf; [|reflexivity].
    apply finished_terminal in Hf. congruence.
  - exact Hdrain.
  - intros ev Hf Hend. rewrite run_snoc in Hend.
    destruct (step_ends _ ev HI Hf Hend) as (Hout & _ & _ & Hdel & Hph).
    assert (Hall : delivered (step (run options trace) ev)
                   = emitted (trace ++ [ev])).
    { rewrite Hdel, run_results, emitted_app. cbn. rewrite Hout.
      now rewrite app_nil_r. }
    split; [now rewrite run_snoc|].
    intros after.
    replace (trace ++ ev :: after) with ((trace ++ [ev]) ++ after)
      by (now rewrite <- app_assoc).
    rewrite run_app, run_snoc.
    destruct (steps_after_end after _ _ Hph) as [_ ->]. exact Hall.
  - intros Hq Hterm.
    assert (Hcase : finished (run options trace) = true
                    \/ finished (run options trace) = false)
      by (destruct (finished (run options trace)); auto).
    destruct Hcase as [Hf | Hf].
    + exists 0%nat. rewrite run_app.
      destruct (phase (run options trace)) as [| | | how] eqn:Hph;
        try (unfold finished in Hf; rewrite Hph in Hf; discriminate).
      destruct (steps_after_end (pulls 0) _ _ Hph) as [Hsame Hdel].
      split; [unfold finished; now rewrite Hsame|].
      split; [rewrite Hdel; now apply Hquiet | apply Hpulls].
    + destruct (Hdrain Hterm Hf) as (n & Hfin & Hdel).
      exists n. split; [exact Hfin|]. split; [exact Hdel | apply Hpulls].
Qed.

(** C8, as the specification words it, fails: the sender task fails
    after the first result, the consumer receives that result and then
    the failure, and the result the remote side emits afterwards is never
    yielded. The sequence has ended with one outcome delivered of the two
    emitted. *)
Lemma scanMultiple_late_result_counterexample :
  let first := mkResponse "OK" "" 0 "file1.txt" in
  let second := mkResponse "FOUND" "Eicar" 0 "file2.txt" in
  let trace := [Data first; SubmitFailed (Js.VError (Js.newError "read failed"));
                Resume; Next; Data second] in
  phase (run None trace)
  = Ended (Js.Raised (Js.VError (Js.newError "read failed")))
  /\ delivered (run None trace) = [toScanResult first]
  /\ emitted trace = [toScanResult first; toScanResult second]
  /\ (forall after,
        delivered (run None (trace ++ after)) = [toScanResult first])
  /\ delivered (run None trace) <> emitted trace.
Proof.
  cbv zeta. split; [reflexivity|]. split; [reflexivity|].
  split; [reflexivity|]. split; [|discriminate].
  intros after. rewrite run_app.
  now destruct (steps_after_end after _ _
                  (eq_refl : phase (run None
                     [Data (mkResponse "OK" "" 0 "file1.txt");
                      SubmitFailed (Js.VError (Js.newError "read failed"));
                      Resume; Next;
                      Data (mkResponse "FOUND" "Eicar" 0 "file2.txt")])
                   = Ended (Js.Raised (Js.VError (Js.newError "read failed")))))
    as [_ ->].
Qed.

(** The second file's result arrives before the first file's: that is the
    order of delivery. *)
Example scanMultiple_out_of_order :
  let first := mkResponse "OK" "" 0 "file1.txt" in
  let second := mkResponse "FOUND" "Eicar" 0 "file2.txt" in
  let d := run None [Submitted; Data second; Data first; EndOfStream;
                     Resume; Next; Next] in
  delivered d = [toScanResult second; toScanResult first]
  /\ phase d = Ended Js.Returned.
Proof. split; reflexivity. Qed.

(** C4. In the multi-file driver, when a failure is recorded, from the
    sender task or from an error event of the exchange, nothing buffered
    is discarded; if the failure is thrown to the consumer at all, every
    outcome buffered when it was recorded has been yielded before; and a
    consumer that keeps asking does receive those outcomes and then the
    failure. *)
Theorem scanMultiple_failure_after_buffered
        (options : option Types.RequestOptions)
        (before : list Event) (ev : Event) (e : Js.Error) :
  finished (run options before) = false ->
  failureOf ev = Some e ->
  let buffered := results (state (run options (before ++ [ev]))) in
  buffered = emitted before
  /\ buffered = results (state (run options before))
  /\ delivered (run options (before ++ [ev])) = delivered (run options before)
  /\ (forall after v,
        phase (run options (before ++ ev :: after)) = Ended (Js.Raised v) ->
        exists more,
          delivered (run options (before ++ ev :: after)) = buffered ++ more)
  /\ (exists n,
        let d := run options (before ++ ev :: pulls n) in
        delivered d = buffered
        /\ phase d = Ended (Js.Raised (Js.VError e))).
Proof.
  intros Hf Hev. cbv zeta.
  pose proof (run_inv options before) as HI.
  destruct (failure_step (run options before) ev e Hev)
    as (Hout & Hdone & Herr & Hdel & Hfin).
  assert (Hbuf : results (state (run options (before ++ [ev])))
                 = results (state (run options before))).
  { rewrite run_snoc, step_results, Hout. apply app_nil_r. }
  split; [now rewrite Hbuf, run_results|].
  split; [exact Hbuf|].
  split; [now rewrite run_snoc|].
  split.
  - intros after v Hph.
    assert (Hend : finished (fold_left step (ev :: after) (run options before))
                   = true).
    { rewrite <- run_app. unfold finished. now rewrite Hph. }
    destruct (steps_end (ev :: after) _ HI Hf Hend)
      as (t1 & ev' & t2 & _ & _ & _ & Hd & _).
    exists (emitted t1). rewrite run_app, Hd, Hbuf. reflexivity.
  - assert (HI' : Inv (run options (before ++ [ev]))) by apply run_inv.
    rewrite run_snoc in HI'.
    destruct (drains _ HI') as (n & Hd & _ & Hph).
    + now rewrite Hfin.
    + exact Hdone.
    + exists n. cbv zeta in *.
      replace (before ++ ev :: pulls n) with ((before ++ [ev]) ++ pulls n)
        by (now rewrite <- app_assoc).
      rewrite run_app, !run_snoc. rewrite Hd, Hph, Herr.
      split; reflexivity.
Qed.

Lemma scanMultiple_failure_after_buffered_witness :
  let first := mkResponse "OK" "" 0 "a.txt" in
  let second := mkResponse "FOUND" "Eicar" 0 "b.txt" in
  let failure := mkServiceError UNAVAILABLE "Connection dropped" "" in
  let before := [Data first; Resume; Data second] in
  let ev := Error failure in
  let buffered := results (state (run None (before ++ [ev]))) in
  finished (run None before) = false
  /\ failureOf ev = Some (mapGrpcError failure)
  /\ buffered = emitted before
  /\ buffered = results (state (run None before))
  /\ delivered (run None (before ++ [ev])) = delivered (run None before)
  /\ (forall after v,
        phase (run None (before ++ ev :: after)) = Ended (Js.Raised v) ->
        exists more,
          delivered (run None (before ++ ev :: after)) = buffered ++ more)
  /\ (exists n,
        let d := run None (before ++ ev :: pulls n) in
        delivered d = buffered
        /\ phase d = Ended (Js.Raised (Js.VError (mapGrpcError failure)))).
Proof.
  intros first second failure before ev buffered.
  split; [reflexivity|]. split; [reflexivity|].
  apply (scanMultiple_failure_after_buffered
           None before ev (mapGrpcError failure)); reflexivity.
Defined.

(** Such a run, computed: the two buffered outcomes are
    delivered, then the failure is thrown. *)
Example scanMultiple_failure_drained :
  let first := mkResponse "OK" "" 0 "a.txt" in
  let second := mkResponse "FOUND" "Eicar" 0 "b.txt" in
  let failure := mkServiceError UNAVAILABLE "Connection dropped" "" in
  let d := run None [Data first; Resume; Data second; Error failure;
                     Next; Next] in
  delivered d = [toScanResult first; toScanResult second]
  /\ phase d = Ended (Js.Raised (Js.VError (mapGrpcError failure))).
Proof. split; reflexivity. Qed.

(** C5, as the code has it. The driver keeps at most one failure, in the
    slot [state.error], and every failure signal overwrites it: the slot
    holds the failure signalled last. What is thrown to the consumer is
    what the slot holds when the generator finds the buffer drained, that
    is the last failure signalled before the throw, and it stays the
    failure of the sequence whatever is signalled later. A failure signal
    changes neither the buffered outcomes nor what has been delivered. *)
Theorem scanMultiple_latest_failure_wins
        (options : option Types.RequestOptions) (trace : list Event) :
  error (state (run options trace)) = lastFailure trace
  /\ (forall ev v,
        finished (run options trace) = false ->
        phase (run options (trace ++ [ev])) = Ended (Js.Raised v) ->
        exists e,
          v = Js.VError e
          /\ lastFailure trace = Some e
          /\ (forall after,
                phase (run options (trace ++ ev :: after))
                = Ended (Js.Raised v)))
  /\ (forall ev e,
        failureOf ev = Some e ->
        results (state (run options (trace ++ [ev])))
        = results (state (run options trace))
        /\ delivered (run options (trace ++ [ev]))
           = delivered (run options trace)).
Proof.
  pose proof (run_inv options trace) as HI.
  split; [|split].
  - apply run_error.
  - intros ev v Hf Hph. rewrite run_snoc in Hph.
    assert (Hend : finished (step (run options trace) ev) = true)
      by (unfold finished; now rewrite Hph).
    destruct (step_ends _ ev HI Hf Hend) as (_ & _ & _ & _ & Hph').
    rewrite Hph' in Hph. rewrite run_error in *.
    destruct (lastFailure trace) as [e |]; [|discriminate].
    exists e. inversion Hph; subst. repeat split.
    intros after.
    replace (trace ++ ev :: after) with ((trace ++ [ev]) ++ after)
      by (now rewrite <- app_assoc).
    rewrite run_app, run_snoc.
    now destruct (steps_after_end after _ _ Hph') as [-> _].
  - intros ev e Hev.
    destruct (failure_step (run options trace) ev e Hev)
      as (Hout & _ & _ & Hdel & _).
    rewrite run_snoc, step_results, Hout, Hdel. split; [apply app_nil_r|].
    reflexivity.
Qed.

(** C5, as the specification words it, fails: the consumer is busy with
    the first outcome while the sender task fails and the exchange then
    reports its own error; the next call of [next()] throws the second
    failure, not the first. *)
Lemma scanMultiple_first_failure_counterexample :
  let outcome := mkResponse "OK" "" 0 "a.txt" in
  let cancelled := mkServiceError CANCELLED "Cancelled on client" "" in
  let trace := [Data outcome; Resume;
                SubmitFailed (Js.VOther "write failed");
                Error cancelled; Next] in
  failures trace = [Js.newError "write failed"; mapGrpcError cancelled]
  /\ phase (run None trace)
     = Ended (Js.Raised (Js.VError (mapGrpcError cancelled)))
  /\ phase (run None trace)
     <> Ended (Js.Raised (Js.VError (Js.newError "write failed")))
  /\ delivered (run None trace) = [toScanResult outcome].
Proof.
  cbv zeta. repeat split; try reflexivity. intros H. discriminate H.
Qed.

End DriverSpec.

(* ===================================================================== *)
(** * The REST client's [scanMultiple] *)
(* ===================================================================== *)

Module RestSpec.

Import Types Rest.

Section WithScanFile.

Variable scanFile :
  nat -> Buffer -> string -> option RequestOptions -> Settled ScanResult.

Lemma allSettled_length (files : list FileEntry) options :
  forall i, List.length (allSettled scanFile i files options)
            = List.length files.
Proof.
  induction files as [| file files IH]; intros i; cbn; [reflexivity|].
  now rewrite IH.
Qed.

Lemma allSettled_nth (files : list FileEntry) options :
  forall i k file,
    nth_error files k = Some file ->
    nth_error (allSettled scanFile i files options) k
    = Some (scanFile (i + k)%nat (data file) (fileName file) options).
Proof.
  induction files as [| f files IH]; intros i k file H.
  - destruct k; discriminate.
  - destruct k as [| k]; cbn in *.
    + inversion H; subst. now rewrite Nat.add_0_r.
    + rewrite (IH (S i) k file H). f_equal. f_equal. lia.
Qed.

End WithScanFile.

(** C10. For every list of files, the REST client's [scanMultiple] yields
    exactly one [ScanResult] per file, in the order of the list, and ends
    normally, never by a throw: the result of a scan that succeeds is
    yielded as it is, and a scan that fails becomes a result with status
    ["ERROR"], [isInfected = false], [scanTime = 0] and the message of the
    failure. The gRPC driver, by contrast, can end by throwing a recorded
    failure. *)
Theorem rest_scanMultiple_per_file
        (scanFile : nat -> Buffer -> string -> option RequestOptions
                    -> Settled ScanResult)
        (files : list FileEntry) (options : option RequestOptions) :
  let yields := fst (scanMultiple scanFile files options) in
  snd (scanMultiple scanFile files options) = Js.Returned
  /\ List.length yields = List.length files
  /\ (forall k file,
        nth_error files k = Some file ->
        nth_error yields k
        = Some (yieldFor (scanFile k (data file) (fileName file) options)))
  /\ (forall value, yieldFor (Fulfilled value) = value)
  /\ (forall err,
        status (yieldFor (Rejected err)) = "ERROR"%string
        /\ isInfected (yieldFor (Rejected err)) = false
        /\ scanTime (yieldFor (Rejected err)) = 0%Q
        /\ message (yieldFor (Rejected err)) = messageOf err)
  /\ (forall e, messageOf (Js.VError e) = Js.message e)
  /\ (exists trace v,
        Grpc.phase (Grpc.run options trace) = Grpc.Ended (Js.Raised v)).
Proof.
  cbv zeta. unfold scanMultiple. cbn [fst snd].
  split; [reflexivity|].
  split; [now rewrite length_map, allSettled_length|].
  split.
  { intros k file H. rewrite nth_error_map.
    now rewrite (allSettled_nth scanFile files options 0 k file H). }
  split; [reflexivity|].
  split; [intros err; repeat split|].
  split; [reflexivity|].
  exists [Grpc.Error (Grpc.mkServiceError Grpc.UNAVAILABLE "down" "");
          Grpc.Resume].
  eexists. reflexivity.
Qed.

(** The unit test: one scan succeeds, the other fails in [fetch]. *)
Example rest_scanMultiple_mixed :
  let clean := mkScanResult "OK" "" 0 (Some "clean.txt"%string) false in
  let refused :=
    Js.mkError Js.ClamAVConnectionError "ClamAVConnectionError"
               "Failed to connect to ClamAV API"
               (Some "CONNECTION_ERROR"%string) None in
  let scanFile (i : nat) (_ : Buffer) (_ : string)
               (_ : option RequestOptions) :=
    match i with
    | O => Fulfilled clean
    | _ => Rejected (Js.VError refused)
    end in
  scanMultiple scanFile [mkFile [] "clean.txt"; mkFile [] "test.txt"] None
  = ([clean;
      mkScanResult "ERROR" "Failed to connect to ClamAV API" 0 None false],
     Js.Returned).
Proof. reflexivity. Qed.

End RestSpec.

(* ===================================================================== *)
(** * Streams that fail, and the stream helpers *)
(* ===================================================================== *)

Module StreamFacts.

Import Chunker BufFacts ChunkerFacts StreamUtil.

Lemma contents_ofList (l : list Buffer) : contents (ofList l) = Buf.concat l.
Proof. induction l as [| b l IH]; cbn; [reflexivity | now rewrite IH]. Qed.

Lemma ending_ofList (l : list Buffer) : ending (ofList l) = Js.Returned.
Proof. induction l as [| b l IH]; cbn; auto. Qed.

Lemma contents_failing (l : list Buffer) (v : Js.Value) :
  contents (failing l v) = Buf.concat l.
Proof. induction l as [| b l IH]; cbn; [reflexivity | now rewrite IH]. Qed.

Lemma ending_failing (l : list Buffer) (v : Js.Value) :
  ending (failing l v) = Js.Raised v.
Proof. induction l as [| b l IH]; cbn; auto. Qed.

Section Positive.

Variable F : Z.
Hypothesis F_pos : 0 < F.

Lemma emit_stepsTo (pending : list Buffer) (s : Source) :
  F <= len (Buf.concat pending) ->
  stepsTo F (Buf.concat pending ++ contents s) (ending s) (emit F pending s).
Proof.
  intros H. unfold emit. rewrite merge_concat.
  pose proof (len_nonneg (Buf.concat pending)) as Hn.
  cbn [stepsTo sound owed willEnd].
  rewrite len_subarray_prefix by lia.
  split; [exact H|]. split.
  - rewrite app_assoc. f_equal. symmetry. apply split_at. lia.
  - repeat split; lia.
Qed.

Lemma forLoop_stepsTo (s : Source) :
  forall pending pendingBytes,
    pendingBytes = len (Buf.concat pending) ->
    pendingBytes < F ->
    stepsTo F (Buf.concat pending ++ contents s) (ending s)
            (forLoop F pending pendingBytes s).
Proof.
  induction s as [| buf rest IH | v]; intros pending pb Hpb Hlt;
    cbn [forLoop contents ending]; rewrite ?app_nil_r.
  - destruct (Z.ltb_spec 0 pb) as [Hp | Hp]; cbn.
    + rewrite merge_concat, app_nil_r. repeat split; try lia.
    + split; [|reflexivity]. apply len_nil_iff.
      pose proof (len_nonneg (Buf.concat pending)). lia.
  - assert (Hsnoc : Buf.concat pending ++ buf ++ contents rest
                    = Buf.concat (pending ++ [buf]) ++ contents rest)
      by (now rewrite concat_snoc, <- app_assoc).
    assert (Hlen : pb + len buf = len (Buf.concat (pending ++ [buf])))
      by (rewrite concat_snoc, len_app; lia).
    rewrite Hsnoc.
    destruct (Z.leb_spec F (pb + len buf)) as [Hge | Hless].
    + apply emit_stepsTo. lia.
    + now apply IH.
  - cbn. split; [reflexivity | lia].
Qed.

Lemma resume_stepsTo (merged : Buffer) (s : Source) :
  F <= len merged ->
  stepsTo F (subarrayFrom merged F ++ contents s) (ending s)
          (resume F merged s).
Proof.
  intros Hm. unfold resume.
  set (remainder := subarrayFrom merged F).
  pose proof (len_nonneg remainder) as Hr.
  destruct (Z.ltb_spec 0 (len remainder)) as [Hp | Hz].
  - assert (E : remainder ++ contents s
                 = Buf.concat [remainder] ++ contents s)
      by (cbn; now rewrite app_nil_r).
    rewrite E.
    destruct (Z.leb_spec F (len remainder)) as [Hge | Hless].
    + apply (emit_stepsTo [remainder] s). cbn. now rewrite app_nil_r.
    + apply (forLoop_stepsTo s [remainder]);
        [cbn; now rewrite app_nil_r | assumption].
  - assert (remainder = []) as -> by (apply len_nil_iff; lia).
    destruct (Z.leb_spec F 0) as [Hge | Hless]; [lia|].
    apply (forLoop_stepsTo s [] 0); [reflexivity | assumption].
Qed.

Lemma next_stepsTo (g : Gen) :
  sound F g -> stepsTo F (owed F g) (willEnd g) (next F g).
Proof.
  destruct g as [s | merged s | |]; cbn [sound owed willEnd next]; intros H.
  - apply (forLoop_stepsTo s [] 0); [reflexivity | assumption].
  - now apply resume_stepsTo.
  - split; reflexivity.
  - split; reflexivity.
Qed.

Lemma collect_any (n : nat) :
  forall g,
    sound F g ->
    (List.length (owed F g) <= n)%nat ->
    exists frames,
      collect F (S n) g = Some (frames, willEnd g)
      /\ runSpec F (owed F g) (willEnd g) frames.
Proof.
  induction n as [| n IH]; intros g Hs Hlen;
    pose proof (next_stepsTo g Hs) as Hstep;
    rewrite collect_S; destruct (next F g) as [b g' | | v];
    cbn [stepsTo] in Hstep.
  - destruct Hstep as (_ & Hrem & _ & Hb & _).
    rewrite Hrem, length_app in Hlen. unfold len in Hb. lia.
  - destruct Hstep as [Ho He]. exists []. rewrite He, Ho.
    repeat split.
  - destruct Hstep as [He Hlt]. exists []. rewrite He.
    split; [reflexivity|]. cbn. split; [constructor|].
    exists (owed F g). split; [reflexivity | exact Hlt].
  - destruct Hstep as (Hs' & Hrem & He & Hb & Hshort).
    assert (Hlen' : (List.length (owed F g') <= n)%nat).
    { rewrite Hrem, length_app in Hlen. unfold len in Hb. lia. }
    destruct (IH g' Hs' Hlen') as (frames & Hc & Hspec).
    rewrite Hc, He in *. exists (b :: frames). split; [reflexivity|].
    unfold runSpec in *. destruct (willEnd g) as [| v].
    + destruct Hspec as [Hcat Hws]. split.
      * cbn. unfold Buf.concat in Hcat. now rewrite Hcat, Hrem.
      * apply wellSized_cons; try assumption.
        intros Hlt. rewrite (Hshort Hlt), collect_S in Hc. cbn in Hc.
        now inversion Hc.
    + destruct Hspec as (Hall & lost & Hcat & Hlost).
      assert (Hfull : len b = F).
      { destruct (Z.eq_dec (len b) F) as [E | NE]; [exact E|].
        assert (Hlt : len b < F) by lia.
        rewrite (Hshort Hlt) in He. discriminate He. }
      split; [constructor; assumption|].
      exists lost. split; [|exact Hlost].
      rewrite Hrem, Hcat. cbn. now rewrite app_assoc.
  - destruct Hstep as [Ho He]. exists []. rewrite He, Ho.
    repeat split.
  - destruct Hstep as [He Hlt]. exists []. rewrite He.
    split; [reflexivity|]. cbn. split; [constructor|].
    exists (owed F g). split; [reflexivity | exact Hlt].
Qed.

(** [chunkStream] on any stream: it ends the way the stream ends. *)
Lemma chunkStream_any (s : Source) :
  exists frames,
    chunkStream F s frames (ending s)
    /\ runSpec F (contents s) (ending s) frames.
Proof.
  destruct (collect_any (List.length (contents s)) (Start s))
    as (frames & Hc & Hspec); [exact I | cbn; lia |].
  exists frames. split; [eexists; exact Hc | exact Hspec].
Qed.

End Positive.

(** [streamToBuffer], whatever has been gathered so far. *)
Lemma gather_spec (s : Source) :
  forall chunks,
    gather chunks s
    = match ending s with
      | Js.Returned => Rest.Fulfilled (Buf.concat chunks ++ contents s)
      | Js.Raised v => Rest.Rejected v
      end.
Proof.
  induction s as [| b rest IH | v]; intros chunks; cbn [gather ending contents].
  - now rewrite app_nil_r.
  - rewrite IH, concat_snoc. destruct (ending rest); [|reflexivity].
    now rewrite <- app_assoc.
  - reflexivity.
Qed.

(** When its stream fails, [chunkStream] has yielded full frames only,
    which are the beginning of the bytes read; the bytes still pending,
    fewer than a frame, are not yielded; and the generator throws the
    failure of the stream. *)
Theorem chunkStream_failing_source
        (fragments : list Buffer) (v : Js.Value) (F : Z) :
  0 < F ->
  exists frames lost,
    chunkStream F (failing fragments v) frames (Js.Raised v)
    /\ (forall frames' e,
          chunkStream F (failing fragments v) frames' e ->
          frames' = frames /\ e = Js.Raised v)
    /\ Forall (fun b => len b = F) frames
    /\ Buf.concat fragments = Buf.concat frames ++ lost
    /\ len lost < F.
Proof.
  intros HF.
  destruct (chunkStream_any F HF (failing fragments v))
    as (frames & Hrun & Hspec).
  rewrite ending_failing, contents_failing in *.
  destruct Hspec as (Hall & lost & Hcat & Hlost).
  exists frames, lost.
  split; [exact Hrun|]. split; [|auto].
  intros frames' e H.
  exact (chunkStream_functional _ _ _ _ _ _ H Hrun).
Qed.

Lemma chunkStream_failing_source_witness :
  let fragments := [["001"; "002"; "003"]; ["004"; "005"]]%byte in
  let v := Js.VOther "read failed" in
  0 < 2
  /\ exists frames lost,
       chunkStream 2 (failing fragments v) frames (Js.Raised v)
       /\ (forall frames' e,
             chunkStream 2 (failing fragments v) frames' e ->
             frames' = frames /\ e = Js.Raised v)
       /\ Forall (fun b => len b = 2) frames
       /\ Buf.concat fragments = Buf.concat frames ++ lost
       /\ len lost < 2.
Proof.
  intros fragments v. split; [lia|].
  apply (chunkStream_failing_source fragments v 2). lia.
Defined.

(** The fifth byte is lost with the failure. *)
Example chunkStream_failing_small :
  collect 2 10 (Start (failing [["001"; "002"; "003"]; ["004"; "005"]]%byte
                               (Js.VOther "read failed")))
  = Some ([["001"; "002"]; ["003"; "004"]]%byte,
          Js.Raised (Js.VOther "read failed")).
Proof. reflexivity. Qed.

(** [streamToBuffer] gives the bytes of a stream that ends normally, all
    of them and in order, and rejects with the failure of a stream that
    fails; after [bufferToStream] it gives the buffer back; and cutting a
    stream into frames with [chunkStream] does not change what
    [streamToBuffer] gives. *)
Theorem streamToBuffer_bytes :
  (forall buf, streamToBuffer (bufferToStream buf) = Rest.Fulfilled buf)
  /\ (forall fragments,
        streamToBuffer (ofList fragments)
        = Rest.Fulfilled (Buf.concat fragments))
  /\ (forall fragments v,
        streamToBuffer (failing fragments v) = Rest.Rejected v)
  /\ (forall F fragments frames,
        0 < F ->
        chunkStream F (ofList fragments) frames Js.Returned ->
        streamToBuffer (ofList frames) = streamToBuffer (ofList fragments)).
Proof.
  unfold streamToBuffer. repeat split.
  - intros buf. cbn. now rewrite app_nil_r.
  - intros fragments.
    now rewrite gather_spec, ending_ofList, contents_ofList.
  - intros fragments v. now rewrite gather_spec, ending_failing.
  - intros F fragments frames HF Hrun.
    destruct (chunkStream_total F HF fragments) as (frames0 & Hrun0 & Hcat & _).
    destruct (chunkStream_functional _ _ _ _ _ _ Hrun Hrun0) as [-> _].
    rewrite !gather_spec, !ending_ofList, !contents_ofList.
    cbn. now rewrite Hcat.
Qed.

End StreamFacts.

(* ===================================================================== *)
(** * What the Frame Sender puts on the wire *)
(* ===================================================================== *)

Module WireFacts.

Import Chunker BufFacts ChunkerFacts StreamUtil StreamFacts Grpc SenderModel
       SenderSpec GrpcSender.

Lemma labelled_chunks (fname : string) (chunks : list Buffer) :
  map chunk (labelled fname chunks) = chunks.
Proof.
  destruct chunks as [| c cs]; [reflexivity|].
  cbn. now rewrite unlabelled_chunks.
Qed.

Lemma wellSized_bounds (F : Z) (frames : list Buffer) :
  0 < F ->
  wellSized F frames ->
  Forall (fun b => 0 < len b <= F) frames.
Proof.
  intros HF. induction frames as [| b frames IH]; intros H; [constructor|].
  destruct frames as [| c frames].
  - constructor; [exact H | constructor].
  - destruct H as [Hb Hrest]. constructor; [lia | now apply IH].
Qed.

Lemma removelast_map {A B} (f : A -> B) (l : list A) :
  removelast (map f l) = map f (removelast l).
Proof.
  induction l as [| a l IH]; [reflexivity|].
  destruct l as [| b l]; [reflexivity|].
  cbn [map removelast] in *. now rewrite IH.
Qed.

(** The frames written for a file carry the bytes of the file, all of
    them and in order; every frame carries at least one byte and at most
    [CHUNK_SIZE], and every frame but the last exactly [CHUNK_SIZE]. *)
Theorem sendStreamChunks_payload (fragments : list Buffer) (fname : string) :
  exists written,
    sendStreamChunks (ofList fragments) fname written Js.Returned
    /\ Buf.concat (map chunk written) = Buf.concat fragments
    /\ Forall (fun r => 0 < len (chunk r) <= CHUNK_SIZE) written
    /\ Forall (fun r => len (chunk r) = CHUNK_SIZE) (removelast written).
Proof.
  assert (HF : 0 < CHUNK_SIZE) by reflexivity.
  destruct (chunkStream_total CHUNK_SIZE HF fragments)
    as (chunks & Hrun & Hcat & Hws).
  exists (labelled fname chunks).
  split; [now apply sendStreamChunks_labelled|].
  split; [now rewrite labelled_chunks|].
  split.
  - apply Forall_map with (f := chunk)
                          (P := fun b => 0 < len b <= CHUNK_SIZE).
    rewrite labelled_chunks. now apply wellSized_bounds.
  - apply Forall_map with (f := chunk) (P := fun b => len b = CHUNK_SIZE).
    rewrite <- removelast_map, labelled_chunks.
    now apply wellSized_removelast.
Qed.

(** The loop of the sender with a chunk held back: what has been written
    is the chunks before the one now held, none of them terminal. *)
Lemma feed_written (fname : string) (chunks : list Buffer) :
  forall prev isFirst written,
    let written' := snd (feed fname chunks (Some prev) isFirst written) in
    map chunk written' = map chunk written ++ removelast (prev :: chunks)
    /\ (Forall (fun r => isLast r = false) written ->
        Forall (fun r => isLast r = false) written').
Proof.
  induction chunks as [| c cs IH]; intros prev isFirst written; cbv zeta.
  - cbn. rewrite app_nil_r. auto.
  - cbn [feed onChunk].
    destruct (IH c false
                 (written ++ [mkRequest prev (if isFirst then fname else "")
                                        false])) as [Hmap Hall].
    cbv zeta in *. split.
    + rewrite Hmap, map_app, <- app_assoc. reflexivity.
    + intros H. apply Hall. apply Forall_app. split; [exact H|].
      constructor; [reflexivity | constructor].
Qed.

(** When the stream of a file fails, the promise of [sendStreamChunks]
    rejects with that failure; what has been written is every chunk
    produced except the last one, which is still held back; and no frame
    written carries [isLast = true]. *)
Theorem sendStreamChunks_failing_stream
        (fragments : list Buffer) (v : Js.Value) (fname : string) :
  exists written chunks,
    sendStreamChunks (failing fragments v) fname written (Js.Raised v)
    /\ chunkStream CHUNK_SIZE (failing fragments v) chunks (Js.Raised v)
    /\ map chunk written = removelast chunks
    /\ Forall (fun r => isLast r = false) written
    /\ (forall written' e,
          sendStreamChunks (failing fragments v) fname written' e ->
          written' = written /\ e = Js.Raised v).
Proof.
  assert (HF : 0 < CHUNK_SIZE) by reflexivity.
  destruct (chunkStream_any CHUNK_SIZE HF (failing fragments v))
    as (chunks & Hrun & _).
  rewrite ending_failing in Hrun.
  pose proof Hrun as [fuel Hc].
  pose proof (sendLoop_collect fname fuel _ _ _ None true [] Hc) as Hsend.
  set (written := finish fname (Js.Raised v) (feed fname chunks None true []))
    in *.
  assert (Hrel : sendStreamChunks (failing fragments v) fname written
                                  (Js.Raised v))
    by (exists fuel; exact Hsend).
  assert (Hw : map chunk written = removelast chunks
               /\ Forall (fun r => isLast r = false) written).
  { subst written. destruct chunks as [| c cs]; [cbn; auto|].
    cbn [feed onChunk].
    destruct (feed_written fname cs c true []) as [Hmap Hall].
    cbv zeta in *. unfold finish.
    destruct (feed fname cs (Some c) true []) as [[p b] w].
    cbn [snd] in *. split; [exact Hmap | apply Hall; constructor]. }
  exists written, chunks.
  split; [exact Hrel|]. split; [exact Hrun|].
  split; [apply Hw|]. split; [apply Hw|].
  intros written' e H.
  exact (sendStreamChunks_functional _ _ _ _ _ _ H Hrel).
Qed.

(** ** The sender task of [scanMultiple] *)

Lemma submitFiles_mono (files : list Types.FileEntry) :
  forall n call r,
    submitFiles n files call = Some r ->
    forall m, (n <= m)%nat -> submitFiles m files call = Some r.
Proof.
  induction files as [| file rest IH]; intros n call r H m Hm;
    cbn [submitFiles] in *; [exact H|].
  destruct (sendLoop n (Types.fileName file)
                     (Start (readableFrom (Types.data file))) None true [])
    as [[written e] |] eqn:E; [|discriminate].
  rewrite (sendLoop_mono _ n _ _ _ _ _ E m Hm).
  destruct e; [now apply IH with (n := n) | exact H].
Qed.

(** What one file contributes: its bytes, and one terminal frame unless
    it is empty. *)
Lemma file_block (d : Buffer) (fname : string)
      (block : list ScanStreamRequest) :
  sendStreamChunks (readableFrom d) fname block Js.Returned ->
  Buf.concat (map chunk block) = d
  /\ List.length (filter isLast block)
     = match d with [] => 0%nat | _ => 1%nat end.
Proof.
  intros H.
  assert (HF : 0 < CHUNK_SIZE) by reflexivity.
  destruct (chunkStream_total CHUNK_SIZE HF [d])
    as (chunks & Hrun & Hcat & Hws).
  change (ofList [d]) with (readableFrom d) in Hrun.
  pose proof (sendStreamChunks_labelled _ fname _ Hrun) as Hsend.
  destruct (sendStreamChunks_functional _ _ _ _ _ _ H Hsend) as [-> _].
  rewrite labelled_chunks. cbn in Hcat. rewrite app_nil_r in Hcat.
  split; [exact Hcat|].
  destruct chunks as [| c cs].
  - cbn in Hcat. subst d. reflexivity.
  - destruct (labelled_last fname c cs) as (init & final & -> & Hf & Hi).
    rewrite filter_app, (count_none isLast init Hi). cbn. rewrite Hf.
    destruct d as [| x d]; [|reflexivity].
    exfalso. assert (Hc : 0 < len c) by (destruct cs; cbn in Hws; lia).
    change (Buf.concat (c :: cs)) with (c ++ Buf.concat cs) in Hcat.
    apply app_eq_nil in Hcat. destruct Hcat as [-> _]. cbn in Hc. lia.
Qed.

Lemma submitFiles_blocks (files : list Types.FileEntry) :
  forall call,
    exists fuel blocks,
      submitFiles fuel files call
      = Some (call ++ map Write (List.concat blocks) ++ [End], Js.Returned)
      /\ Forall2 (fun file block =>
                    sendStreamChunks (readableFrom (Types.data file))
                                     (Types.fileName file) block Js.Returned)
                 files blocks.
Proof.
  induction files as [| file rest IH]; intros call.
  - exists 0%nat, []. split; [reflexivity | constructor].
  - assert (HF : 0 < CHUNK_SIZE) by reflexivity.
    destruct (chunkStream_total CHUNK_SIZE HF [Types.data file])
      as (chunks & Hrun & _).
    change (ofList [Types.data file])
      with (readableFrom (Types.data file)) in Hrun.
    pose proof (sendStreamChunks_labelled _ (Types.fileName file) _ Hrun)
      as Hblock.
    set (block := labelled (Types.fileName file) chunks) in *.
    destruct Hblock as [fuel0 H0].
    destruct (IH (call ++ map Write block)) as (fuel1 & blocks & H1 & Hall).
    exists (Nat.max fuel0 fuel1), (block :: blocks). split.
    + cbn [submitFiles].
      rewrite (sendLoop_mono _ fuel0 _ _ _ _ _ H0 (Nat.max fuel0 fuel1))
        by lia.
      rewrite (submitFiles_mono rest fuel1 _ _ H1 (Nat.max fuel0 fuel1))
        by lia.
      cbn [List.concat]. now rewrite map_app, <- !app_assoc.
    + constructor; [exists fuel0; exact H0 | exact Hall].
Qed.

(** The sender task of [scanMultiple] on a list of buffers runs to its
    end without failing. The call receives the frames of the first file,
    then those of the second, and so on, never interleaved, each block
    being what [sendStreamChunks] writes for that file, and [call.end()]
    last. The frames carry the bytes of the files in order, and there is
    one frame with [isLast = true] for every file that is not empty, and
    none for an empty file. *)
Theorem submitFiles_wire (files : list Types.FileEntry) :
  exists fuel blocks,
    submitFiles fuel files []
    = Some (map Write (List.concat blocks) ++ [End], Js.Returned)
    /\ Forall2 (fun file block =>
                  sendStreamChunks (readableFrom (Types.data file))
                                   (Types.fileName file) block Js.Returned)
               files blocks
    /\ framesOf (map Write (List.concat blocks) ++ [End])
       = List.concat blocks
    /\ Buf.concat (map chunk (List.concat blocks))
       = Buf.concat (map Types.data files)
    /\ List.length (filter isLast (List.concat blocks))
       = List.length (filter nonEmpty files).
Proof.
  destruct (submitFiles_blocks files []) as (fuel & blocks & Hrun & Hall).
  exists fuel, blocks. split; [exact Hrun|]. split; [exact Hall|].
  split; [|split].
  - clear. induction (List.concat blocks) as [| r l IH]; [reflexivity|].
    cbn. now rewrite IH.
  - clear Hrun. induction Hall as [| file block files blocks Hb _ IH];
      [reflexivity|].
    destruct (file_block _ _ _ Hb) as [Hbytes _].
    cbn [List.concat map]. rewrite map_app.
    unfold Buf.concat in *. rewrite concat_app. cbn [List.concat].
    now rewrite Hbytes, IH.
  - clear Hrun. induction Hall as [| file block files blocks Hb _ IH];
      [reflexivity|].
    destruct (file_block _ _ _ Hb) as [_ Hlast].
    cbn [List.concat filter]. rewrite filter_app, length_app, Hlast, IH.
    unfold nonEmpty. destruct (Types.data file); reflexivity.
Qed.

(** Two files of five bytes: each is one frame with its name and
    [isLast = true]; an empty file between them is not seen on the
    wire. *)
Example submitFiles_small :
  let five := ["001"; "002"; "003"; "004"; "005"]%byte in
  submitFiles 3 [Types.mkFile five "a.txt"; Types.mkFile [] "empty.txt";
                 Types.mkFile five "b.txt"] []
  = Some ([Write (mkRequest five "a.txt" true);
           Write (mkRequest five "b.txt" true); End], Js.Returned).
Proof. reflexivity. Qed.

End WireFacts.

(* ===================================================================== *)
(** * Input resolution *)
(* ===================================================================== *)

Module ValidationFacts.

Import Chunker Validation.

(** [resolveInput] fails only on a path whose [stat] fails, and then with
    that failure. For a buffer it gives the buffer, its length as size,
    and a stream that [streamToBuffer] turns back into the buffer. The
    filename it resolves is the one [deriveFilename] derives, except for
    an empty filename: [resolveInput] keeps the empty string, where
    [deriveFilename] falls back to the base name or to ["file"]. *)
Theorem resolveInput_cases (fs : Fs) :
  (forall input filename v,
      resolveInput fs input filename = Rest.Rejected v ->
      exists path, input = InPath path /\ stat fs path = Rest.Rejected v)
  /\ (forall b filename,
        exists resolved,
          resolveInput fs (InBuffer b) filename = Rest.Fulfilled resolved
          /\ buffer resolved = Some b
          /\ size resolved = Some (len b)
          /\ StreamUtil.streamToBuffer (stream resolved) = Rest.Fulfilled b)
  /\ (forall input filename resolved,
        resolveInput fs input filename = Rest.Fulfilled resolved ->
        filename <> Some ""%string ->
        Validation.filename resolved = deriveFilename fs input filename)
  /\ (forall input resolved,
        resolveInput fs input (Some ""%string) = Rest.Fulfilled resolved ->
        Validation.filename resolved = ""%string
        /\ deriveFilename fs input (Some ""%string)
           = deriveFilename fs input None).
Proof.
  split; [|split; [|split]].
  - intros input filename v H. destruct input as [path | b | s]; cbn in H;
      try discriminate.
    exists path. split; [reflexivity|].
    destruct (stat fs path); [discriminate | congruence].
  - intros b filename. eexists. split; [reflexivity|]. cbn.
    repeat split. unfold StreamUtil.streamToBuffer. cbn.
    now rewrite app_nil_r.
  - intros input filename resolved H Hne.
    assert (Hname : forall dflt,
               nullish filename dflt
               = match filename with
                 | Some f => if String.eqb f "" then dflt else f
                 | None => dflt
                 end).
    { intros dflt. destruct filename as [f |]; [|reflexivity]. cbn.
      destruct (String.eqb_spec f ""); [subst; congruence | reflexivity]. }
    unfold deriveFilename.
    destruct input as [path | b | s]; cbn in H.
    + destruct (stat fs path); [|discriminate]. inversion H; subst. cbn.
      rewrite Hname. destruct filename; reflexivity.
    + inversion H; subst. cbn. rewrite Hname. destruct filename; reflexivity.
    + inversion H; subst. cbn. rewrite Hname. destruct filename; reflexivity.
  - intros input resolved H. split; [|reflexivity].
    destruct input as [path | b | s]; cbn in H.
    + destruct (stat fs path); [|discriminate]. now inversion H.
    + now inversion H.
    + now inversion H.
Qed.

End ValidationFacts.

(* ===================================================================== *)
(** * Results and errors of the gRPC client *)
(* ===================================================================== *)

Module GrpcResultFacts.

Import Grpc DriverModel DriverFacts ResultModel.

Lemma toScanResult_consistent (response : GrpcScanResponse) :
  consistent (toScanResult response).
Proof.
  unfold consistent, toScanResult, Js.orString. cbn. repeat split.
  - destruct (String.eqb_spec (resp_status response) ""); congruence.
  - destruct (String.eqb_spec (resp_filename response) "");
      congruence.
Qed.

Lemma emitted_consistent (trace : list Event) :
  Forall consistent (emitted trace).
Proof.
  induction trace as [| ev trace IH]; [constructor|].
  cbn. destruct ev; cbn; try assumption.
  constructor; [apply toScanResult_consistent | assumption].
Qed.

(** Every outcome the gRPC [scanMultiple] yields, in every execution, has
    a status that is not empty, is marked infected exactly when its
    status is ["FOUND"], and has either no filename or a filename that is
    not empty. *)
Theorem scanMultiple_outcomes_consistent
        (options : option Types.RequestOptions) (trace : list Event) :
  Forall consistent (delivered (run options trace)).
Proof.
  rewrite (inv_delivered _ (run_inv options trace)), run_results.
  apply Forall_forall. intros r Hr.
  pose proof (emitted_consistent trace) as H.
  rewrite Forall_forall in H. apply H.
  revert Hr. generalize (yielded (run options trace)) (emitted trace).
  induction n as [| n IH]; intros [| x l] Hin; cbn in Hin; try contradiction.
  destruct Hin as [-> | Hin]; [now left | right; now apply IH].
Qed.

Lemma mapGrpcError_isClamAV (e : ServiceError) :
  Errors.isClamAV (mapGrpcError e) = true.
Proof.
  unfold mapGrpcError.
  repeat match goal with
         | |- context [if ?c then _ else _] => destruct c
         end; reflexivity.
Qed.

(** [mapGrpcError] always gives an instance of [ClamAVError], whose
    message is the [details] of the gRPC error, or its [message] when the
    details are empty. The error code is decided by the gRPC status code
    alone, each of the five named status codes having a code of its own,
    and the status code is kept in [statusCode] except for [UNAVAILABLE],
    where [statusCode] is left undefined. *)
Theorem mapGrpcError_classes (e : ServiceError) :
  let m := mapGrpcError e in
  Errors.isClamAV m = true
  /\ Js.message m
     = (if String.eqb (se_details e) "" then se_message e else se_details e)
  /\ (Js.code m = Some "VALIDATION_ERROR"%string <-> se_code e = 3)
  /\ (Js.code m = Some "SERVICE_ERROR"%string <-> se_code e = 13)
  /\ (Js.code m = Some "TIMEOUT"%string <-> se_code e = 4)
  /\ (Js.code m = Some "CONNECTION_ERROR"%string <-> se_code e = 14)
  /\ (Js.code m = Some "CANCELLED"%string <-> se_code e = 1)
  /\ (Js.code m = Some "GRPC_ERROR"%string <->
      ~ In (se_code e) [3; 13; 4; 14; 1])
  /\ (Js.statusCode m = None <-> se_code e = 14)
  /\ (se_code e <> 14 -> Js.statusCode m = Some (se_code e)).
Proof.
  cbv zeta. unfold mapGrpcError, INVALID_ARGUMENT, INTERNAL,
    DEADLINE_EXCEEDED, UNAVAILABLE, CANCELLED.
  destruct (Z.eqb_spec (se_code e) 3) as [E3 | N3];
    [|destruct (Z.eqb_spec (se_code e) 13) as [E13 | N13];
      [|destruct (Z.eqb_spec (se_code e) 4) as [E4 | N4];
        [|destruct (Z.eqb_spec (se_code e) 14) as [E14 | N14];
          [|destruct (Z.eqb_spec (se_code e) 1) as [E1 | N1]]]]];
    cbn [Js.code Js.statusCode Js.message Js.cls Errors.isClamAV In];
    repeat split; intros; try reflexivity; try discriminate; try lia;
      try congruence; try tauto.
  all: try (exfalso; intuition lia).
Qed.

End GrpcResultFacts.

(* ===================================================================== *)
(** * The multi-file driver: when the sequence ends, and when it waits *)
(* ===================================================================== *)

Module DriverMore.

Import Grpc DriverModel DriverFacts.

Lemma lastFailure_none (trace : list Event) :
  lastFailure trace = None -> failures trace = [].
Proof.
  unfold lastFailure. destruct (failures trace) as [| e l] using rev_ind;
    [reflexivity|].
  rewrite map_app. cbn. rewrite last_last. discriminate.
Qed.

Lemma terminal_without_failure (trace : list Event) :
  existsb terminal trace = true ->
  failures trace = [] ->
  In EndOfStream trace.
Proof.
  induction trace as [| ev trace IH]; [discriminate|].
  cbn [existsb failures]. destruct ev; cbn; intros Ht Hf;
    try discriminate; auto.
Qed.

(** The sequence ends by a normal return only when the exchange has
    ended normally before and no failure has been signalled until then;
    everything emitted until then has been delivered. *)
Theorem scanMultiple_normal_end
        (options : option Types.RequestOptions) (trace : list Event) :
  phase (run options trace) = Ended Js.Returned ->
  exists before after,
    trace = before ++ after
    /\ In EndOfStream before
    /\ failures before = []
    /\ delivered (run options trace) = emitted before.
Proof.
  intros Hph.
  assert (Hf : finished (fold_left step trace (opened options)) = true)
    by (unfold finished; fold (run options trace); now rewrite Hph).
  destruct (steps_end trace _ (opened_inv options) eq_refl Hf)
    as (t1 & ev & t2 & -> & Hf1 & Hf2 & Hdel & Hph').
  exists t1, (ev :: t2).
  fold (run options (t1 ++ ev :: t2)) in Hdel, Hph'.
  fold (run options t1) in Hph', Hf1.
  rewrite Hph in Hph'. rewrite run_error in Hph'.
  assert (Hnone : lastFailure t1 = None)
    by (destruct (lastFailure t1); [discriminate | reflexivity]).
  apply lastFailure_none in Hnone.
  rewrite fold_left_app in Hf2. cbn [fold_left] in Hf2.
  pose proof (step_ends_done _ ev Hf1 Hf2) as Hdone.
  unfold run in Hdone. rewrite steps_done, opened_done in Hdone.
  cbn [orb] in Hdone.
  repeat split; try assumption.
  now apply terminal_without_failure.
Qed.

Lemma scanMultiple_normal_end_witness :
  let r := mkResponse "OK" "" 0 "a.txt" in
  let trace := [Data r; EndOfStream; Resume; Next] in
  phase (run None trace) = Ended Js.Returned
  /\ exists before after,
       trace = before ++ after
       /\ In EndOfStream before
       /\ failures before = []
       /\ delivered (run None trace) = emitted before.
Proof.
  intros r trace. split; [reflexivity|].
  apply (scanMultiple_normal_end None trace). reflexivity.
Defined.

(** A failure signalled after the normal end of the exchange, before the
    consumer has drained the buffer, still ends the sequence by a
    throw. *)
Example scanMultiple_late_failure :
  let r := mkResponse "OK" "" 0 "a.txt" in
  let late := mkServiceError CANCELLED "Cancelled on client" "" in
  phase (run None [Data r; Resume; EndOfStream; Error late; Next])
  = Ended (Js.Raised (Js.VError (mapGrpcError late))).
Proof. reflexivity. Qed.

(** No wake-up is lost: in every execution, whenever the generator is
    suspended in its [await], the consumer has received every outcome
    emitted so far, the exchange has neither ended nor failed, and no
    failure has been signalled. *)
Theorem scanMultiple_waits_only_when_empty
        (options : option Types.RequestOptions) (trace : list Event) :
  phase (run options trace) = Awaiting ->
  delivered (run options trace) = emitted trace
  /\ existsb terminal trace = false
  /\ failures trace = [].
Proof.
  intros Hph. pose proof (run_inv options trace) as [Hd Hy Ha].
  destruct (Ha Hph) as [_ Hdone].
  assert (Hterm : existsb terminal trace = false).
  { unfold run in Hdone. rewrite steps_done, opened_done in Hdone.
    exact Hdone. }
  split; [|split; [exact Hterm|]].
  - rewrite Hd, (run_waiting options trace Hph), <- (run_results options).
    apply firstn_all.
  - clear -Hterm. induction trace as [| ev trace IH]; [reflexivity|].
    cbn [existsb] in Hterm. apply orb_false_elim in Hterm.
    destruct Hterm as [Hev Hrest].
    cbn [failures]. destruct ev; cbn in *; try discriminate; auto.
Qed.

Lemma scanMultiple_waits_only_when_empty_witness :
  let r := mkResponse "OK" "" 0 "a.txt" in
  let trace := [Data r; Resume; Next] in
  phase (run None trace) = Awaiting
  /\ delivered (run None trace) = emitted trace
  /\ existsb terminal trace = false
  /\ failures trace = [].
Proof.
  intros r trace. split; [reflexivity|].
  apply (scanMultiple_waits_only_when_empty None trace). reflexivity.
Defined.

End DriverMore.

(* ===================================================================== *)
(** * The REST client: responses, failures, base URL *)
(* ===================================================================== *)

Module RestFacts.

Import Stdlib.Strings.Ascii.
Import Types Errors Validation RestOps.

(** What [handleErrorStatus] throws on a body that is not [null] is a
    [ClamAVError] that carries the HTTP status. *)
Lemma handleErrorStatus_thrown (response : Rest.Response) (fields : Body)
      (e : Js.Error) :
  handleErrorStatus response (JValue fields) = Some e ->
  Rest.ok response = false
  /\ isClamAV e = true
  /\ Js.statusCode e = Some (Rest.httpStatus response).
Proof.
  unfold handleErrorStatus. destruct (Rest.ok response); [discriminate|].
  intros H. inversion H; subst; clear H. split; [reflexivity|].
  destruct (Z.eqb_spec (Rest.httpStatus response) 400) as [-> |];
    [now split|].
  destruct (Z.eqb_spec (Rest.httpStatus response) 413) as [-> |];
    [now split|].
  destruct (Z.eqb_spec (Rest.httpStatus response) 499) as [-> |];
    [now split|].
  destruct (Z.eqb_spec (Rest.httpStatus response) 502) as [-> |];
    [now split|].
  destruct (Z.eqb_spec (Rest.httpStatus response) 504) as [-> |];
    now split.
Qed.

(** [parseScanResponse] on a [null] body: the first property read throws,
    [body.message] for a response that is not ok and [body.status] for
    one that is. *)
Lemma parseScanResponse_null (env : Env) (response : Rest.Response)
      (filename : option string) :
  json env response = Rest.Fulfilled JNull ->
  parseScanResponse env response filename
  = Rest.Rejected
      (Js.VError (nullTypeError (if Rest.ok response then "status"
                                 else "message"))).
Proof.
  unfold parseScanResponse, handleErrorStatus. intros ->.
  now destruct (Rest.ok response).
Qed.


(** [parseScanResponse], case by case. A failure of [response.json()] is
    the rejection, as it is. A body that is [null] makes the call reject
    with the bare [TypeError] of the first property read, which is not a
    [ClamAVError], whether the response is ok or not. Any other body: a
    response that is not ok never gives a result, the call rejects with a
    [ClamAVError] carrying the HTTP status; a response that is ok gives a
    result whose status is the body's, ["ERROR"] when the body has none,
    which is marked infected exactly when the status is ["FOUND"], under
    the filename passed in. *)
Theorem parseScanResponse_cases
        (env : Env) (response : Rest.Response) (filename : option string) :
  (forall v,
      json env response = Rest.Rejected v ->
      parseScanResponse env response filename = Rest.Rejected v)
  /\ (json env response = Rest.Fulfilled JNull ->
      exists e,
        parseScanResponse env response filename
        = Rest.Rejected (Js.VError e)
        /\ e = nullTypeError (if Rest.ok response then "status"
                              else "message")
        /\ Js.name e = "TypeError"%string
        /\ isClamAV e = false)
  /\ (forall fields,
        json env response = Rest.Fulfilled (JValue fields) ->
        Rest.ok response = false ->
        exists e,
          parseScanResponse env response filename
          = Rest.Rejected (Js.VError e)
          /\ isClamAV e = true
          /\ Js.statusCode e = Some (Rest.httpStatus response))
  /\ (forall fields,
        json env response = Rest.Fulfilled (JValue fields) ->
        Rest.ok response = true ->
        exists r,
          parseScanResponse env response filename = Rest.Fulfilled r
          /\ status r = nullish (bodyStatus fields) "ERROR"%string
          /\ message r = nullish (bodyMessage fields) ""%string
          /\ isInfected r = String.eqb (status r) "FOUND"
          /\ Types.filename r = filename).
Proof.
  split; [|split; [|split]].
  - unfold parseScanResponse. intros v ->. reflexivity.
  - intros E. eexists. split; [now apply parseScanResponse_null|].
    split; [reflexivity|]. split; reflexivity.
  - unfold parseScanResponse. intros fields -> Hok.
    destruct (handleErrorStatus response (JValue fields)) as [e |] eqn:E.
    + exists e. split; [reflexivity|].
      now destruct (handleErrorStatus_thrown _ _ _ E) as (_ & ? & ?).
    + unfold handleErrorStatus in E. rewrite Hok in E. discriminate.
  - unfold parseScanResponse. intros fields -> Hok.
    unfold handleErrorStatus. rewrite Hok.
    eexists. split; [reflexivity|]. cbn. repeat split.
Qed.

Lemma rethrow_clamav (error : Js.Value) :
  instanceOfClamAVError (rethrow error) = true.
Proof.
  unfold rethrow. destruct (instanceOfClamAVError error) eqn:E;
    [exact E | reflexivity].
Qed.

Lemma rethrow_keeps (error : Js.Value) :
  instanceOfClamAVError error = true -> rethrow error = error.
Proof. unfold rethrow. now intros ->. Qed.

(** [healthCheck] and [version] invoke the transport exactly once and
    reject only with instances of [ClamAVError]: a failure that is one is
    passed on as it is, also a failure of [response.json()], and any
    other failure becomes a [ClamAVConnectionError]; [version] rejects
    every response that is not ok. *)
Theorem rest_unary_failures
        (c : RestClient) (env : Env) (options : option RequestOptions) :
  (forall v,
      snd (healthCheck c env options) = Rest.Rejected v ->
      instanceOfClamAVError v = true)
  /\ (forall v,
        snd (version c env options) = Rest.Rejected v ->
        instanceOfClamAVError v = true)
  /\ (forall response body,
        snd (Rest.fetch (transport env) (baseUrl c) (clientTimeout c)
                        "/api/version" options)
        = Rest.Fulfilled response ->
        Rest.ok response = false ->
        snd (version c env options) <> Rest.Fulfilled body)
  /\ List.length (filter (fun op => match op with
                                    | Rest.GlobalFetch _ _ => true
                                    | _ => false
                                    end)
                         (fst (healthCheck c env options))) = 1%nat
  /\ List.length (filter (fun op => match op with
                                    | Rest.GlobalFetch _ _ => true
                                    | _ => false
                                    end)
                         (fst (version c env options))) = 1%nat.
Proof.
  assert (Hops : forall path,
             List.length
               (filter (fun op => match op with
                                  | Rest.GlobalFetch _ _ => true
                                  | _ => false
                                  end)
                       (fst (Rest.fetch (transport env) (baseUrl c)
                                        (clientTimeout c) path options)))
             = 1%nat).
  { intros path. unfold Rest.fetch, Rest.linkSignal. cbn [fst filter].
    rewrite filter_app.
    destruct (signalOf options) as [s |]; [destruct (aborted s)|];
      reflexivity. }
  unfold healthCheck, version.
  split; [|split; [|split; [|split]]].
  - intros v.
    destruct (Rest.fetch _ _ _ "/api/health-check" options)
      as [ops [response | error]]; cbn [snd].
    + destruct (json env response) as [[| fields] | error];
        [|discriminate|]; intros H; inversion H; apply rethrow_clamav.
    + intros H. inversion H. apply rethrow_clamav.
  - intros v.
    destruct (Rest.fetch _ _ _ "/api/version" options)
      as [ops [response | error]]; cbn [snd].
    + destruct (assertOk response) as [e |].
      * intros H. inversion H. apply rethrow_clamav.
      * destruct (json env response) as [body | error]; [discriminate|].
        intros H. inversion H. apply rethrow_clamav.
    + intros H. inversion H. apply rethrow_clamav.
  - intros response body.
    destruct (Rest.fetch _ _ _ "/api/version" options)
      as [ops fetched]; cbn [snd].
    intros -> Hok. unfold assertOk. rewrite Hok. discriminate.
  - specialize (Hops "/api/health-check"%string).
    destruct (Rest.fetch _ _ _ "/api/health-check" options) as [ops r].
    exact Hops.
  - specialize (Hops "/api/version"%string).
    destruct (Rest.fetch _ _ _ "/api/version" options) as [ops r].
    exact Hops.
Qed.


(** A body that is not JSON: [healthCheck] reports a connection error,
    [scanFile] the bare [SyntaxError]. *)
Example rest_json_failure :
  let syntaxError :=
    Js.VError (Js.mkError Js.PlainError "SyntaxError"
                          "Unexpected token < in JSON" None None) in
  let env :=
    mkEnv (mkFs (fun p => p) (fun _ => Rest.Fulfilled 0) (fun _ => Chunker.Eof))
          (fun _ _ => Rest.mkExchange
                        (Rest.Fulfilled (Rest.mkResponse true 200)) false)
          (fun _ => Rest.Rejected syntaxError) in
  let c := newRestClient (mkClientOptions "http://localhost:6000/" None None) in
  snd (scanFile c env (InBuffer ["001"%byte]) (Some "a.txt"%string) None)
  = Rest.Rejected syntaxError
  /\ snd (healthCheck c env None)
     = Rest.Rejected
         (Js.VError (newConnectionError "Failed to connect to ClamAV API")).
Proof. split; reflexivity. Qed.

(** A body that is the JSON value [null], on a response with status 200:
    [scanFile] and [scanStream] reject with the bare [TypeError],
    [healthCheck] with a connection error, and [version] returns the
    [null]. *)
Example rest_null_body :
  let env :=
    mkEnv (mkFs (fun p => p) (fun _ => Rest.Fulfilled 0) (fun _ => Chunker.Eof))
          (fun _ _ => Rest.mkExchange
                        (Rest.Fulfilled (Rest.mkResponse true 200)) false)
          (fun _ => Rest.Fulfilled JNull) in
  let c := newRestClient (mkClientOptions "http://localhost:6000/" None None) in
  snd (scanFile c env (InBuffer ["001"%byte]) (Some "a.txt"%string) None)
  = Rest.Rejected (Js.VError (nullTypeError "status"))
  /\ snd (scanStream c env (InBuffer ["001"%byte]) None None)
     = Rest.Rejected (Js.VError (nullTypeError "status"))
  /\ instanceOfClamAVError (Js.VError (nullTypeError "status")) = false
  /\ snd (healthCheck c env None)
     = Rest.Rejected
         (Js.VError (newConnectionError "Failed to connect to ClamAV API"))
  /\ snd (version c env None) = Rest.Fulfilled JNull.
Proof. repeat split. Qed.

(** ** The base URL *)

Lemma slashes_snoc (n : nat) :
  slashes (S n) = (slashes n ++ "/")%string.
Proof. induction n as [| n IH]; [reflexivity|]. cbn in *. now rewrite <- IH. Qed.

Lemma strip_split (u : string) :
  exists n, u = (stripTrailingSlashes u ++ slashes n)%string.
Proof.
  induction u as [| ch rest IH]; [exists 0%nat; reflexivity|].
  destruct IH as [n IH]. cbn [stripTrailingSlashes].
  destruct (stripTrailingSlashes rest) as [| k kept] eqn:E.
  - cbn in IH. destruct (Ascii.eqb_spec ch "/"%char) as [-> | Hne].
    + exists (S n). cbn. now rewrite <- IH.
    + exists n. cbn. now rewrite <- IH.
  - exists n. cbn in *. now rewrite <- IH.
Qed.

Lemma strip_no_slash (u : string) :
  forall p, stripTrailingSlashes u <> (p ++ "/")%string.
Proof.
  induction u as [| ch rest IH]; intros p.
  - cbn. destruct p; discriminate.
  - cbn [stripTrailingSlashes].
    destruct (stripTrailingSlashes rest) as [| k kept] eqn:E.
    + destruct (Ascii.eqb_spec ch "/"%char) as [-> | Hne].
      * destruct p; discriminate.
      * destruct p as [| q p]; cbn; intros H; inversion H; subst.
        -- now apply Hne.
        -- destruct p; discriminate.
    + destruct p as [| q p]; cbn; intros H; inversion H; subst.
      now apply (IH p).
Qed.

(** The base URL of the REST client is the given URL without the run of
    slashes at its end: nothing else is removed, it never ends with a
    slash, removing again changes nothing, and every request goes to the
    base URL followed by the path of the endpoint. *)
Theorem restClient_baseUrl (options : ClientOptions) :
  let c := newRestClient options in
  (exists n, url options = (baseUrl c ++ slashes n)%string)
  /\ (forall p, baseUrl c <> (p ++ "/")%string)
  /\ stripTrailingSlashes (baseUrl c) = baseUrl c
  /\ (forall env o,
        In (Rest.GlobalFetch (baseUrl c ++ "/api/health-check")
                             (Rest.controllerAborted (signalOf o)))
           (fst (healthCheck c env o))).
Proof.
  cbv zeta. unfold newRestClient. cbn [baseUrl].
  split; [apply strip_split|]. split; [apply strip_no_slash|]. split.
  - destruct (strip_split (stripTrailingSlashes (url options))) as [n Hn].
    destruct n as [| n].
    + cbn in Hn. rewrite Hn at 2.
      clear. induction (stripTrailingSlashes _) as [| a s IH];
        [reflexivity | cbn; now rewrite <- IH].
    + exfalso. rewrite slashes_snoc in Hn.
      apply (strip_no_slash (url options)
               (stripTrailingSlashes (stripTrailingSlashes (url options))
                ++ slashes n)%string).
      rewrite Hn at 1.
      clear. generalize (stripTrailingSlashes
                           (stripTrailingSlashes (url options))).
      intros s. induction s as [| a s IH]; [reflexivity|].
      cbn. now rewrite IH.
  - intros env o. unfold healthCheck.
    destruct (Rest.fetch _ _ _ "/api/health-check" o) as [ops r] eqn:E.
    cbn [fst]. unfold Rest.fetch in E. inversion E; subst ops.
    right. apply in_or_app. right. left. reflexivity.
Qed.

(** The URL of the unit test. *)
Example restClient_baseUrl_test :
  baseUrl (newRestClient (mkClientOptions "http://localhost:6000/" None None))
  = "http://localhost:6000"%string.
Proof. reflexivity. Qed.

End RestFacts.

(* ===================================================================== *)
(** * The facade: which client is used *)
(* ===================================================================== *)

Module FacadeFacts.

Import RestOps Facade.

Lemma prefix_iff (p s : string) :
  String.prefix p s = true <-> exists r, s = (p ++ r)%string.
Proof.
  revert s. induction p as [| a p IH]; intros s.
  - split; [intros _; now exists s | intros _; now destruct s].
  - destruct s as [| b s]; cbn.
    + split; [discriminate | intros [r H]; discriminate].
    + destruct (Ascii.ascii_dec a b) as [-> | Hne].
      * rewrite IH. split; intros [r H]; exists r; [now subst | now inversion H].
      * split; [discriminate | intros [r H]; inversion H; congruence].
Qed.

(** The facade uses the REST client exactly when REST is asked for, or
    when nothing is asked for and the URL begins with [http://] or
    [https://]; an explicit choice overrides the URL. *)
Theorem transportFor_rest (options : ClientOptions) :
  transportFor options = REST
  <-> transportOption options = Some REST
      \/ (transportOption options = None
          /\ exists rest,
               url options = ("http://" ++ rest)%string
               \/ url options = ("https://" ++ rest)%string).
Proof.
  unfold transportFor, detectTransport, Validation.nullish.
  destruct (transportOption options) as [[|] |].
  - split; auto.
  - split; [discriminate | intros [H | [H _]]; discriminate].
  - destruct (String.prefix "http://" (url options)) eqn:E1; cbn [orb].
    + split; [|reflexivity]. intros _. right. split; [reflexivity|].
      apply prefix_iff in E1. destruct E1 as [r Hr]. exists r. now left.
    + destruct (String.prefix "https://" (url options)) eqn:E2.
      * split; [|reflexivity]. intros _. right. split; [reflexivity|].
        apply prefix_iff in E2. destruct E2 as [r Hr]. exists r. now right.
      * split; [discriminate|].
        intros [H | [_ [r [H | H]]]]; [discriminate | |].
        -- assert (String.prefix "http://" (url options) = true)
             by (apply prefix_iff; now exists r).
           congruence.
        -- assert (String.prefix "https://" (url options) = true)
             by (apply prefix_iff; now exists r).
           congruence.
Qed.

End FacadeFacts.

(* ===================================================================== *)
(** * The unary operations of the gRPC client *)
(* ===================================================================== *)

Module GrpcOpsFacts.

Import Chunker Validation Grpc GrpcOps ResultModel GrpcResultFacts.

(** The gRPC [scanFile], case by case. When the input cannot be resolved,
    or its stream cannot be read, the promise rejects with that failure
    as it is and the stub is never invoked. When the input is resolved
    and read, the stub is invoked once, after which the signal is wired,
    and the promise settles by the answer of the transport to the bytes
    read and the resolved filename: an answer is turned into a result,
    an error of the transport into an instance of [ClamAVError].
    Conversely, the stub is invoked at most once; a rejection without a
    call is the failure of resolving or reading; a rejection after the
    call is an instance of [ClamAVError]; and a result comes only after
    the call, with a status that is not empty and [isInfected] set
    exactly for ["FOUND"]. [version] always rejects with a validation
    error and never invokes the stub. *)
Theorem grpc_unary_outcomes
        (fs : Fs) (reply : Buffer -> string -> Reply GrpcScanResponse)
        (input : Input) (filename : option string)
        (options : option Types.RequestOptions) :
  let run := scanFile fs reply input filename options in
  (forall v,
      resolveInput fs input filename = Rest.Rejected v ->
      run = ([], Rest.Rejected v))
  /\ (forall resolved v,
        resolveInput fs input filename = Rest.Fulfilled resolved ->
        buffer resolved = None ->
        StreamUtil.collectStream (stream resolved) = Rest.Rejected v ->
        run = ([], Rest.Rejected v))
  /\ (forall resolved data,
        resolveInput fs input filename = Rest.Fulfilled resolved ->
        buffer resolved = Some data
        \/ (buffer resolved = None
            /\ StreamUtil.collectStream (stream resolved)
               = Rest.Fulfilled data) ->
        run = (Invoke ScanFile :: wireAbortSignal (Types.signalOf options),
               match reply data (Validation.filename resolved) with
               | Failed error => Rest.Rejected (Js.VError (mapGrpcError error))
               | Replied response => Rest.Fulfilled (toScanResult response)
               end))
  /\ (fst run = []
      \/ exists rest, fst run = Invoke ScanFile :: rest
                      /\ ~ In (Invoke ScanFile) rest)
  /\ (forall v,
        snd run = Rest.Rejected v ->
        (fst run = []
         /\ (resolveInput fs input filename = Rest.Rejected v
             \/ exists resolved,
                  resolveInput fs input filename = Rest.Fulfilled resolved
                  /\ StreamUtil.collectStream (stream resolved)
                     = Rest.Rejected v))
        \/ (fst run <> [] /\ Errors.instanceOfClamAVError v = true))
  /\ (forall r, snd run = Rest.Fulfilled r -> fst run <> [] /\ consistent r)
  /\ (forall b,
        input = InBuffer b ->
        fst run = Grpc.scanFile options
        /\ snd run
           = match reply b (nullish filename "file"%string) with
             | Failed error => Rest.Rejected (Js.VError (mapGrpcError error))
             | Replied response => Rest.Fulfilled (toScanResult response)
             end)
  /\ (fst (version options) = []
      /\ exists e,
           snd (version options) = Rest.Rejected (Js.VError e)
           /\ Js.cls e = Js.ClamAVValidationError).
Proof.
  cbv zeta.
  assert (Hops : exists rest, Grpc.scanFile options = Invoke ScanFile :: rest
                              /\ ~ In (Invoke ScanFile) rest).
  { unfold Grpc.scanFile, wireAbortSignal. eexists. split; [reflexivity|].
    destruct (Types.signalOf options) as [s |];
      [destruct (Types.aborted s)|]; cbn; intuition discriminate. }
  assert (Hne : Grpc.scanFile options <> [])
    by (unfold Grpc.scanFile; discriminate).
  split; [|split; [|split; [|split; [|split; [|split; [|split]]]]]].
  - intros v Hres. unfold scanFile. now rewrite Hres.
  - intros resolved v Hres Hbuf Hread. unfold scanFile.
    now rewrite Hres, Hbuf, Hread.
  - intros resolved data Hres [Hbuf | [Hbuf Hread]]; unfold scanFile;
      rewrite Hres, Hbuf, ?Hread; reflexivity.
  - unfold scanFile.
    destruct (resolveInput fs input filename) as [resolved | v]; [|now left].
    destruct (buffer resolved) as [b |];
      [|destruct (StreamUtil.collectStream (stream resolved)); [|now left]];
      right; exact Hops.
  - intros v. unfold scanFile.
    destruct (resolveInput fs input filename) as [resolved | v0] eqn:Er.
    + destruct (buffer resolved) as [b |] eqn:Eb.
      * cbn [fst snd]. destruct (reply b _) as [err | resp]; [|discriminate].
        intros H. inversion H; subst. right. split; [exact Hne|].
        apply mapGrpcError_isClamAV.
      * destruct (StreamUtil.collectStream (stream resolved))
          as [data | v1] eqn:Ec.
        -- cbn [fst snd].
           destruct (reply data _) as [err | resp]; [|discriminate].
           intros H. inversion H; subst. right. split; [exact Hne|].
           apply mapGrpcError_isClamAV.
        -- cbn [fst snd]. intros H. inversion H; subst. left.
           split; [reflexivity|]. right. now exists resolved.
    + cbn [fst snd]. intros H. inversion H; subst. left.
      split; [reflexivity|]. now left.
  - intros r. unfold scanFile.
    destruct (resolveInput fs input filename) as [resolved | v0];
      [|discriminate].
    destruct (buffer resolved) as [b |].
    + cbn [fst snd]. destruct (reply b _) as [err | resp]; [discriminate|].
      intros H. inversion H; subst. split; [exact Hne|].
      apply toScanResult_consistent.
    + destruct (StreamUtil.collectStream (stream resolved)) as [data | v1];
        [|discriminate].
      cbn [fst snd]. destruct (reply data _) as [err | resp]; [discriminate|].
      intros H. inversion H; subst. split; [exact Hne|].
      apply toScanResult_consistent.
  - intros b ->. split; reflexivity.
  - split; [reflexivity|]. eexists. split; reflexivity.
Qed.

(** A path that cannot be read: the stub is not invoked, and the failure
    of [stat] is the rejection. *)
Example grpc_scanFile_missing_path :
  let enoent := Js.VError (Js.mkError Js.PlainError "Error"
                                      "ENOENT: no such file or directory"
                                      (Some "ENOENT"%string) None) in
  let fs := mkFs (fun p => p) (fun _ => Rest.Rejected enoent)
                 (fun _ => Eof) in
  scanFile fs (fun _ _ => Replied (mkResponse "OK" "" 0 ""))
           (InPath "/missing") None None
  = ([], Rest.Rejected enoent).
Proof. reflexivity. Qed.

End GrpcOpsFacts.

(* ===================================================================== *)
(** * A signal that is already aborted *)
(* ===================================================================== *)

Module CancelSpec.

Import Types Fixtures Validation.










(** A signal that is not aborted is only listened to. *)
Example live_signal_is_wired :
  let options := Some (mkOptions (Some (mkSignal false (Js.VOther ""))) None) in
  Grpc.scanFile options = [Grpc.Invoke Grpc.ScanFile; Grpc.ListenAbort].
Proof. reflexivity. Qed.

(** The gRPC [scanStream] with a signal that is already aborted still
    writes the frame of the file to the cancelled call. *)
Example aborted_scanStream_still_writes :
  let fs := mkFs (fun p => p) (fun _ => Rest.Fulfilled 0)
                 (fun _ => Chunker.Eof) in
  GrpcOps.scanStream fs 3 (InBuffer ["001"%byte]) (Some "a.txt"%string)
                     abortedOptions
  = Some ([Grpc.Invoke Grpc.ScanStream; Grpc.Cancel;
           Grpc.Write (Grpc.mkRequest ["001"%byte] "a.txt" true)],
          Js.Returned).
Proof. reflexivity. Qed.

End CancelSpec.
